(** * Read-side queries of the v0 miner-state adapter

    A shallow embedding of [chain/actors/builtin/miner/v0.go]: the adapter
    [state0] that answers sector queries over an immutable snapshot of the
    miner actor state, and the properties of its lookups, of the expiration
    traversal [GetSectorExpiration] and of the filtered view returned by
    [LoadSectorsFromSet].

    Go values are modelled as the code has them: [uint64] and [int64] are
    integers in [Z] with their conversions written out, a function returning
    [(v, error)] returns a pair whose second component is [option error]
    ([None] is Go's [nil]), and a closure that assigns to a captured variable
    is a function from the old value of that variable to the new one. *)

From Stdlib Require Import ZArith List Bool String Lia Sorted.
From Stdlib Require Import Permutation.
Import ListNotations.
Local Open Scope Z_scope.

Set Implicit Arguments.

(* ------------------------------------------------------------------ *)
(** ** Go scalars *)

Definition uint64 := Z.
Definition int64 := Z.

(** [uint64(i)] for an [int64] and [int64(k)] for a [uint64]: the same 64
    bits read without and with a sign. *)
Definition uint64_of_int64 (i : int64) : uint64 := i mod 2 ^ 64.
Definition int64_of_uint64 (k : uint64) : int64 :=
  if k <? 2 ^ 63 then k else k - 2 ^ 64.

(** [abi.SectorNumber] is a [uint64], [abi.ChainEpoch] an [int64]. *)
Definition SectorNumber := uint64.
Definition ChainEpoch := int64.

(** [cid.Cid]: the content address of a stored object; [Equals] compares
    the addresses. *)
Definition Cid := Z.
Definition Cid_Equals (a b : Cid) : bool := a =? b.

(* ------------------------------------------------------------------ *)
(** ** Errors *)

(** What a collaborator (the store, an array, a bit field) reports when a
    read fails; an array refuses an index that is too large for it. *)
Inductive fault : Type :=
| StorageError (key : Cid)
| DecodeError (what : string)
| IndexError (index : uint64).

(** Go's [error] values seen by this file.  [stopErr] is the value made by
    [errors.New("stop")] inside [GetSectorExpiration]; it is compared by
    identity, and no collaborator can return it, so it is a constructor of
    its own.  [Errorf msg e] is [xerrors.Errorf(msg + ": %w", e)]. *)
Inductive error : Type :=
| stopErr
| Raised (f : fault)
| Errorf (msg : string) (cause : error).

(** The outcome of a collaborator call that returns [(v, error)]. *)
Inductive result (A : Type) : Type :=
| Ok (a : A)
| Fail (f : fault).
Arguments Ok {A} a.
Arguments Fail {A} f.

(** [err != nil]. *)
Definition is_error (err : option error) : bool :=
  match err with
  | Some _ => true
  | None => false
  end.

(** A Go callback [func(...) error] that assigns to a captured variable of
    type [S]: from the old value to the new value and the returned error. *)
Definition callback (S : Type) : Type := S -> S * option error.

(* ------------------------------------------------------------------ *)
(** ** Collaborators: bit fields and store-backed arrays *)

(** [bitfield.BitField]: a run-length encoded set of [uint64]; decoding is
    lazy, so a membership test on a corrupt encoding fails. *)
Inductive BitField : Type :=
| Runs (members : list uint64)
| Corrupt (f : fault).

Definition IsSet (bf : BitField) (i : uint64) : bool * option error :=
  match bf with
  | Runs members => (existsb (Z.eqb i) members, None)
  | Corrupt f => (false, Some (Raised f))
  end.

(** [adt0.Array]: a sparse array kept in the store.  It is read through two
    entry points, each walking its own path through the stored tree:
    [Get], and the in-order traversal of [ForEach], which delivers the
    entries one by one and can fail between two of them. *)
Record Array (V : Type) : Type := mkArray {
  arr_get : uint64 -> result (option V);
  arr_scan : list (result (int64 * V))
}.

(** [a.Get(idx, &v)]: the value read into [v] when found, and the error. *)
Definition Array_Get {V} (a : Array V) (idx : uint64) : option V * option error :=
  match arr_get a idx with
  | Ok r => (r, None)
  | Fail f => (None, Some (Raised f))
  end.

(** [a.ForEach(&v, fn)]: decodes each entry into [v] and calls [fn] with its
    index; the first error, of the traversal or of [fn], ends the iteration
    and is returned as it is. *)
Fixpoint ForEach_scan {V S} (scan : list (result (int64 * V)))
    (fn : V -> int64 -> callback S) : callback S :=
  fun s =>
    match scan with
    | [] => (s, None)
    | Fail f :: _ => (s, Some (Raised f))
    | Ok (i, v) :: rest =>
        match fn v i s with
        | (s', Some err) => (s', Some err)
        | (s', None) => ForEach_scan rest fn s'
        end
    end.

Definition Array_ForEach {V S} (a : Array V) (fn : V -> int64 -> callback S)
    : callback S :=
  ForEach_scan (arr_scan a) fn.

(** Modelled from the spec: [adt.ProxyArray], the read-only array made of
    two functions that [LoadSectorsFromSet] returns (the FilteredArrayView
    with its [get] and [forEach]), is declared outside this file. *)
Record ProxyArray (V : Type) : Type := mkProxyArray {
  GetFunc : uint64 -> option V * option error;
  ForEachFunc : forall S : Type, (V -> int64 -> callback S) -> callback S
}.

(** [adt0.Map] keyed by sector number: only [Get] is used here. *)
Record Map (V : Type) : Type := mkMap {
  map_get : uint64 -> result (option V)
}.

(* ------------------------------------------------------------------ *)
(** ** The stored state ([miner0]) *)

Record ExpirationSet : Type := mkExpirationSet {
  OnTimeSectors : BitField;
  EarlySectors : BitField
}.

Record Partition : Type := mkPartition {
  Sectors : BitField;
  Faults : BitField;
  Recoveries : BitField;
  Terminated : BitField;
  ExpirationsEpochs : Cid
}.

Record Deadline : Type := mkDeadline {
  Partitions : Cid;
  PostSubmissions : BitField
}.

(** [miner0.Deadlines]: one address per deadline slot. *)
Record Deadlines : Type := mkDeadlines {
  Due : list Cid
}.

(** [miner0.State], the fields read by the adapter. *)
Record State0 : Type := mkState0 {
  st_Sectors : Cid;
  st_PreCommittedSectors : Cid;
  st_AllocatedSectors : Cid;
  st_Deadlines : Cid;
  st_ProvingPeriodStart : ChainEpoch
}.

(** Modelled from the spec: the result type [SectorExpiration] of the
    expiration query, [{onTime: epoch, early: epoch}], is declared outside
    this file; an unset slot is the zero epoch. *)
Record SectorExpiration : Type := mkSectorExpiration {
  OnTime : ChainEpoch;
  Early : ChainEpoch
}.

(** Modelled from the spec: the result type [SectorLocation] of [FindSector],
    [(deadlineIndex, partitionIndex)], is declared outside this file. *)
Record SectorLocation : Type := mkSectorLocation {
  loc_Deadline : uint64;
  loc_Partition : uint64
}.

(** The indices that the [ForEach] of a view hands to a visitor that records
    them and never asks to stop, in the order of the visits. *)
Definition visited {V} (view : ProxyArray V) : list int64 :=
  fst (ForEachFunc view (fun _ i seen => (seen ++ [i], None)) []).

(** The entries that the traversal of an array delivers: those before its
    first failure, all of them when it has none. *)
Fixpoint delivered {V} (scan : list (result (int64 * V))) : list (int64 * V) :=
  match scan with
  | Ok entry :: rest => entry :: delivered rest
  | _ => []
  end.

(** The inclusion predicate of a filtered view in the words of the spec: a
    bit set with a polarity flag, "include if set" or "include if NOT set",
    or no filter, which includes every index. *)
Definition included (bits : option (list uint64)) (filterOut : bool)
    (i : uint64) : bool :=
  match bits with
  | None => true
  | Some members =>
      if filterOut then negb (existsb (Z.eqb i) members)
      else existsb (Z.eqb i) members
  end.

(** The traversal of an array restricted to the included indices. *)
Definition restricted {V} (bits : option (list uint64)) (filterOut : bool)
    (scan : list (result (int64 * V))) : list (result (int64 * V)) :=
  filter (fun X => match X with
                   | Ok (i, _) => included bits filterOut (uint64_of_int64 i)
                   | Fail _ => true
                   end) scan.

Section Adapter.

(** The stored sector and pre-commit records and the quantization spec
    are opaque to the adapter: it only passes them on. *)
Variables SectorOnChainInfo0 SectorPreCommitOnChainInfo0 QuantSpec : Type.

(** [miner0.State.QuantSpecForDeadline]. *)
Variable QuantSpecForDeadline : State0 -> uint64 -> QuantSpec.

(** [adt.Store]: [Get(ctx, cid, &out)] decodes the object stored at an
    address into [out]; one typed read per type of [out].  [find_Sector] is
    the answer of [miner0.State.FindSector] over this store. *)
Record Store : Type := mkStore {
  get_Deadlines : Cid -> result Deadlines;
  get_Deadline : Cid -> result Deadline;
  get_Partitions : Cid -> result (Array Partition);
  get_Expirations : Cid -> result (Array ExpirationSet);
  get_SectorInfos : Cid -> result (Array SectorOnChainInfo0);
  get_PreCommits : Cid -> result (Map SectorPreCommitOnChainInfo0);
  get_BitField : Cid -> result BitField;
  find_Sector : State0 -> SectorNumber -> result (uint64 * uint64)
}.

(** [miner0.ExpirationQueue]: the array of expiration sets keyed by
    quantized epoch, with the quantization it was loaded under. *)
Record ExpirationQueue : Type := mkExpirationQueue {
  eq_Array : Array ExpirationSet;
  eq_quant : QuantSpec
}.

(** *** Collaborator methods of [miner0] *)

Definition LoadDeadlines (st : State0) (store : Store) : result Deadlines :=
  get_Deadlines store (st_Deadlines st).

(** [Deadlines.ForEach]: loads each slot in index order and calls [cb]. *)
Fixpoint Deadlines_ForEach_from {S} (store : Store) (due : list Cid)
    (dlIdx : uint64) (cb : uint64 -> Deadline -> callback S) : callback S :=
  fun s =>
    match due with
    | [] => (s, None)
    | c :: rest =>
        match get_Deadline store c with
        | Fail f => (s, Some (Raised f))
        | Ok dl =>
            match cb dlIdx dl s with
            | (s', Some err) => (s', Some err)
            | (s', None) => Deadlines_ForEach_from store rest (dlIdx + 1) cb s'
            end
        end
    end.

Definition Deadlines_ForEach {S} (dls : Deadlines) (store : Store)
    (cb : uint64 -> Deadline -> callback S) : callback S :=
  Deadlines_ForEach_from store (Due dls) 0 cb.

Definition PartitionsArray (dl : Deadline) (store : Store)
    : result (Array Partition) :=
  get_Partitions store (Partitions dl).

Definition LoadExpirationQueue (store : Store) (root : Cid) (quant : QuantSpec)
    : result ExpirationQueue :=
  match get_Expirations store root with
  | Ok a => Ok (mkExpirationQueue a quant)
  | Fail f => Fail f
  end.

Definition AsArray (store : Store) (root : Cid) : result (Array SectorOnChainInfo0) :=
  get_SectorInfos store root.

(** [miner0.State.GetSector] and [GetPrecommittedSector]: [(info, ok, err)]. *)
Definition State0_GetSector (st : State0) (store : Store) (num : SectorNumber)
    : option SectorOnChainInfo0 * bool * option error :=
  match AsArray store (st_Sectors st) with
  | Fail f => (None, false, Some (Raised f))
  | Ok sectors =>
      match arr_get sectors num with
      | Fail f => (None, false, Some (Raised f))
      | Ok None => (None, false, None)
      | Ok (Some info) => (Some info, true, None)
      end
  end.

Definition State0_GetPrecommittedSector (st : State0) (store : Store)
    (num : SectorNumber)
    : option SectorPreCommitOnChainInfo0 * bool * option error :=
  match get_PreCommits store (st_PreCommittedSectors st) with
  | Fail f => (None, false, Some (Raised f))
  | Ok precommitted =>
      match map_get precommitted num with
      | Fail f => (None, false, Some (Raised f))
      | Ok None => (None, false, None)
      | Ok (Some info) => (Some info, true, None)
      end
  end.

(** *** The adapter *)

Record state0 : Type := mkstate0 {
  State : State0;
  store : Store
}.

(** [fromV0SectorOnChainInfo] and [fromV0SectorPreCommitOnChainInfo] are
    conversions between two struct types with the same fields. *)
Definition SectorOnChainInfo := SectorOnChainInfo0.
Definition SectorPreCommitOnChainInfo := SectorPreCommitOnChainInfo0.
Definition fromV0SectorOnChainInfo (v0 : SectorOnChainInfo0) : SectorOnChainInfo := v0.
Definition fromV0SectorPreCommitOnChainInfo (v0 : SectorPreCommitOnChainInfo0)
    : SectorPreCommitOnChainInfo := v0.

Definition GetSector (s : state0) (num : SectorNumber)
    : option SectorOnChainInfo * option error :=
  let '(info, ok, err) := State0_GetSector (State s) (store s) num in
  if negb ok || is_error err then (None, err)
  else
    match info with
    | Some info => (Some (fromV0SectorOnChainInfo info), None)
    | None => (None, None)
    end.

Definition FindSector (s : state0) (num : SectorNumber)
    : option SectorLocation * option error :=
  match find_Sector (store s) (State s) num with
  | Fail f => (None, Some (Raised f))
  | Ok (dlIdx, partIdx) => (Some (mkSectorLocation dlIdx partIdx), None)
  end.

(** The innermost closure of [GetSectorExpiration], called by [q.ForEach]
    on each expiration set; [out] is the captured result. *)
Definition scanExpirationSet (num : SectorNumber) (exp : ExpirationSet)
    (epoch : int64) : callback SectorExpiration :=
  fun out =>
    match IsSet (EarlySectors exp) num with
    | (_, Some err) => (out, Some err)
    | (true, None) => (mkSectorExpiration (OnTime out) epoch, None)
    | (false, None) =>
        match IsSet (OnTimeSectors exp) num with
        | (_, Some err) => (out, Some err)
        | (true, None) => (mkSectorExpiration epoch (Early out), Some stopErr)
        | (false, None) => (out, None)
        end
    end.

(** The closure called by [partitions.ForEach] on each partition. *)
Definition scanPartition (s : state0) (num : SectorNumber) (quant : QuantSpec)
    (part : Partition) (partIdx : int64) : callback SectorExpiration :=
  fun out =>
    match IsSet (Sectors part) num with
    | (_, Some err) => (out, Some err)
    | (false, None) => (out, None)
    | (true, None) =>
        match IsSet (Terminated part) num with
        | (_, Some err) => (out, Some err)
        | (true, None) => (out, Some stopErr)
        | (false, None) =>
            match LoadExpirationQueue (store s) (ExpirationsEpochs part) quant with
            | Fail f => (out, Some (Raised f))
            | Ok q => Array_ForEach (eq_Array q) (scanExpirationSet num) out
            end
        end
    end.

(** The closure called by [dls.ForEach] on each deadline. *)
Definition scanDeadline (s : state0) (num : SectorNumber) (dlIdx : uint64)
    (dl : Deadline) : callback SectorExpiration :=
  fun out =>
    match PartitionsArray dl (store s) with
    | Fail f => (out, Some (Raised f))
    | Ok partitions =>
        let quant := QuantSpecForDeadline (State s) dlIdx in
        Array_ForEach partitions (scanPartition s num quant) out
    end.

(** The three nested scans, from [out := SectorExpiration{}]. *)
Definition traverse (s : state0) (num : SectorNumber) (dls : Deadlines)
    : SectorExpiration * option error :=
  Deadlines_ForEach dls (store s) (scanDeadline s num) (mkSectorExpiration 0 0).

Definition GetSectorExpiration (s : state0) (num : SectorNumber)
    : option SectorExpiration * option error :=
  match LoadDeadlines (State s) (store s) with
  | Fail f => (None, Some (Raised f))
  | Ok dls =>
      let '(out, err) := traverse s num dls in
      let err := match err with Some stopErr => None | _ => err end in
      match err with
      | Some e => (None, Some e)
      | None =>
          if (Early out =? 0) && (OnTime out =? 0) then (None, None)
          else (Some out, None)
      end
  end.

Definition GetPrecommittedSector (s : state0) (num : SectorNumber)
    : option SectorPreCommitOnChainInfo * option error :=
  let '(info, ok, err) := State0_GetPrecommittedSector (State s) (store s) num in
  if negb ok || is_error err then (None, err)
  else
    match info with
    | Some info => (Some (fromV0SectorPreCommitOnChainInfo info), None)
    | None => (None, None)
    end.

(** The closure [incl] of [LoadSectorsFromSet]; a nil [filter] is [None]. *)
Definition incl (filter : option BitField) (filterOut : bool) (i : uint64)
    : bool * option error :=
  match filter with
  | None => (true, None)
  | Some filter =>
      match IsSet filter i with
      | (_, Some err) => (false, Some (Errorf "filter check error" err))
      | (set, None) => if Bool.eqb set filterOut then (false, None) else (true, None)
      end
  end.

Definition LoadSectorsFromSet (s : state0) (filter : option BitField)
    (filterOut : bool) : option (ProxyArray SectorOnChainInfo0) * option error :=
  match AsArray (store s) (st_Sectors (State s)) with
  | Fail f => (None, Some (Raised f))
  | Ok a =>
      (Some
         {| GetFunc := fun idx =>
              match incl filter filterOut idx with
              | (_, Some err) => (None, Some err)
              | (false, None) => (None, None)
              | (true, None) => Array_Get a idx
              end;
            ForEachFunc := fun S fn =>
              Array_ForEach a (fun v i s0 =>
                match incl filter filterOut (uint64_of_int64 i) with
                | (_, Some err) => (s0, Some err)
                | (false, None) => (s0, None)
                | (true, None) => fn v i s0
                end) |},
       None)
  end.

Definition IsAllocated (s : state0) (num : SectorNumber) : bool * option error :=
  match get_BitField (store s) (st_AllocatedSectors (State s)) with
  | Fail f => (false, Some (Raised f))
  | Ok allocatedSectors => IsSet allocatedSectors num
  end.

(** Modelled from the spec: the interface [State] implemented by one
    adapter per schema version ("variants v0, v1, ...") is declared outside
    this file; [other.( *state0)] succeeds on the first variant only. *)
Inductive StateIface : Type :=
| IsState0 (s : state0)
| LaterVersion (version : nat).

Definition DeadlinesChanged (s : state0) (other : StateIface) : bool :=
  match other with
  | IsState0 other0 =>
      Cid_Equals (st_Deadlines (State s)) (st_Deadlines (State other0))
  | LaterVersion _ =>
      (* treat an upgrade as a change, always *)
      true
  end.

(* ------------------------------------------------------------------ *)
(** ** Where the traversal stands *)

(** [GetSectorExpiration] loaded the deadlines and its three nested scans
    returned [out] and [err]. *)
Definition runs_to (s : state0) (num : SectorNumber) (out : SectorExpiration)
    (err : option error) : Prop :=
  exists dls,
    LoadDeadlines (State s) (store s) = Ok dls /\ traverse s num dls = (out, err).

(** The traversal is about to load the deadline at slot [dlIdx], of address
    [c], and the captured result is [out]: the slots before it were scanned
    without an error and without a stop. *)
Definition at_deadline (s : state0) (num : SectorNumber) (dlIdx : uint64)
    (c : Cid) (out : SectorExpiration) : Prop :=
  exists dls before after,
    LoadDeadlines (State s) (store s) = Ok dls /\
    Due dls = before ++ c :: after /\
    dlIdx = Z.of_nat (List.length before) /\
    Deadlines_ForEach_from (store s) before 0 (scanDeadline s num)
      (mkSectorExpiration 0 0) = (out, None).

(** The traversal is about to read the entry [X] of the partitions array of
    deadline [dlIdx], and the captured result is [out]. *)
Definition at_partition (s : state0) (num : SectorNumber) (dlIdx : uint64)
    (X : result (int64 * Partition)) (out : SectorExpiration) : Prop :=
  exists c dl partitions out0 before after,
    at_deadline s num dlIdx c out0 /\
    get_Deadline (store s) c = Ok dl /\
    PartitionsArray dl (store s) = Ok partitions /\
    arr_scan partitions = before ++ X :: after /\
    ForEach_scan before
      (scanPartition s num (QuantSpecForDeadline (State s) dlIdx)) out0
      = (out, None).

(** Every deadline and every partitions array of [dls] can be read, and no
    partition holds [num] in its [Sectors]. *)
Definition in_no_partition (st : Store) (dls : Deadlines) (num : SectorNumber)
    : Prop :=
  Forall (fun c =>
    exists dl partitions,
      get_Deadline st c = Ok dl /\ get_Partitions st (Partitions dl) = Ok partitions /\
      Forall (fun X => exists partIdx part,
                X = Ok (partIdx, part) /\ IsSet (Sectors part) num = (false, None))
             (arr_scan partitions))
    (Due dls).

(** The entry [X] of the partitions array of deadline [dlIdx] comes first
    among the partitions that can hold [num]: the deadlines and the partitions
    before it can be read and none of them holds [num] in its [Sectors]. *)
Definition first_holder (s : state0) (num : SectorNumber) (dlIdx : uint64)
    (X : result (int64 * Partition)) : Prop :=
  exists dls before c after dl partitions pbefore pafter,
    LoadDeadlines (State s) (store s) = Ok dls /\
    Due dls = before ++ c :: after /\
    dlIdx = Z.of_nat (List.length before) /\
    in_no_partition (store s) (mkDeadlines before) num /\
    get_Deadline (store s) c = Ok dl /\
    PartitionsArray dl (store s) = Ok partitions /\
    arr_scan partitions = pbefore ++ X :: pafter /\
    Forall (fun X0 => exists partIdx part,
              X0 = Ok (partIdx, part) /\ IsSet (Sectors part) num = (false, None))
           pbefore.

(** The traversal is about to read the entry [Y] of the expiration queue of
    a partition that holds [num] and has not terminated it, and the captured
    result is [out]. *)
Definition at_expiration (s : state0) (num : SectorNumber)
    (Y : result (int64 * ExpirationSet)) (out : SectorExpiration) : Prop :=
  exists dlIdx partIdx part out0 q before after,
    at_partition s num dlIdx (Ok (partIdx, part)) out0 /\
    IsSet (Sectors part) num = (true, None) /\
    IsSet (Terminated part) num = (false, None) /\
    LoadExpirationQueue (store s) (ExpirationsEpochs part)
      (QuantSpecForDeadline (State s) dlIdx) = Ok q /\
    arr_scan (eq_Array q) = before ++ Y :: after /\
    ForEach_scan before (scanExpirationSet num) out0 = (out, None).

(** A collaborator fails with [f] during the query: one case per call that
    can fail, in the order of the code. *)
Inductive raises (s : state0) (num : SectorNumber) (f : fault) : Prop :=
| raises_LoadDeadlines :
    LoadDeadlines (State s) (store s) = Fail f -> raises s num f
| raises_LoadDeadline dlIdx c out :
    at_deadline s num dlIdx c out ->
    get_Deadline (store s) c = Fail f -> raises s num f
| raises_PartitionsArray dlIdx c out dl :
    at_deadline s num dlIdx c out ->
    get_Deadline (store s) c = Ok dl ->
    PartitionsArray dl (store s) = Fail f -> raises s num f
| raises_partitions_ForEach dlIdx out :
    at_partition s num dlIdx (Fail f) out -> raises s num f
| raises_Sectors_IsSet dlIdx partIdx part out :
    at_partition s num dlIdx (Ok (partIdx, part)) out ->
    Sectors part = Corrupt f -> raises s num f
| raises_Terminated_IsSet dlIdx partIdx part out :
    at_partition s num dlIdx (Ok (partIdx, part)) out ->
    IsSet (Sectors part) num = (true, None) ->
    Terminated part = Corrupt f -> raises s num f
| raises_LoadExpirationQueue dlIdx partIdx part out :
    at_partition s num dlIdx (Ok (partIdx, part)) out ->
    IsSet (Sectors part) num = (true, None) ->
    IsSet (Terminated part) num = (false, None) ->
    get_Expirations (store s) (ExpirationsEpochs part) = Fail f -> raises s num f
| raises_queue_ForEach out :
    at_expiration s num (Fail f) out -> raises s num f
| raises_EarlySectors_IsSet epoch exp out :
    at_expiration s num (Ok (epoch, exp)) out ->
    EarlySectors exp = Corrupt f -> raises s num f
| raises_OnTimeSectors_IsSet epoch exp out :
    at_expiration s num (Ok (epoch, exp)) out ->
    IsSet (EarlySectors exp) num = (false, None) ->
    OnTimeSectors exp = Corrupt f -> raises s num f.

(** An expiration set keyed [epoch] in some queue of the store lists [num]
    as expiring early, respectively on time. *)
Definition early_record (st : Store) (num : SectorNumber) (epoch : ChainEpoch)
    : Prop :=
  exists root a exp,
    get_Expirations st root = Ok a /\ In (Ok (epoch, exp)) (arr_scan a) /\
    IsSet (EarlySectors exp) num = (true, None).

Definition ontime_record (st : Store) (num : SectorNumber) (epoch : ChainEpoch)
    : Prop :=
  exists root a exp,
    get_Expirations st root = Ok a /\ In (Ok (epoch, exp)) (arr_scan a) /\
    IsSet (OnTimeSectors exp) num = (true, None).

(** What a scan that starts with the captured result [out] and returns
    [err] leaves in it: the error is the stop value or a collaborator's, the
    on-time epoch changes with a stop only, and an epoch that changes is the
    key of a record of [num] in a queue of the store. *)
Definition scan_effect (st : Store) (num : SectorNumber)
    (out out' : SectorExpiration) (err : option error) : Prop :=
  (err = None \/ err = Some stopErr \/ exists f, err = Some (Raised f)) /\
  (err <> Some stopErr -> OnTime out' = OnTime out) /\
  (Early out' = Early out \/ early_record st num (Early out')) /\
  (OnTime out' = OnTime out \/ ontime_record st num (OnTime out')).

End Adapter.

(* ------------------------------------------------------------------ *)
(** ** The deadline and partition adapters *)

Section Adapters.

Variables SectorOnChainInfo0 SectorPreCommitOnChainInfo0 : Type.

Local Abbreviation Store0 := (Store SectorOnChainInfo0 SectorPreCommitOnChainInfo0).
Local Abbreviation state00 := (state0 SectorOnChainInfo0 SectorPreCommitOnChainInfo0).

(** The error that [miner0.Deadlines.LoadDeadline] makes for an index that
    is not the index of a slot. *)
Variable invalid_deadline : uint64 -> fault.

Record deadline0 : Type := mkdeadline0 {
  d_Deadline : Deadline;
  d_store : Store0
}.

Record partition0 : Type := mkpartition0 {
  p_Partition : Partition;
  p_store : Store0
}.

(** [miner0.Deadlines.LoadDeadline]: the slot of index [dlIdx], loaded. *)
Definition Deadlines_LoadDeadline (dls : Deadlines) (st : Store0) (dlIdx : uint64)
    : result Deadline :=
  if dlIdx >=? Z.of_nat (List.length (Due dls)) then Fail (invalid_deadline dlIdx)
  else
    match nth_error (Due dls) (Z.to_nat dlIdx) with
    | Some c => get_Deadline st c
    | None => Fail (invalid_deadline dlIdx)
    end.

Definition LoadDeadline (s : state00) (idx : uint64)
    : option deadline0 * option error :=
  match LoadDeadlines (State s) (store s) with
  | Fail f => (None, Some (Raised f))
  | Ok dls =>
      match Deadlines_LoadDeadline dls (store s) idx with
      | Fail f => (None, Some (Raised f))
      | Ok dl => (Some (mkdeadline0 dl (store s)), None)
      end
  end.

Definition ForEachDeadline {S} (s : state00)
    (cb : uint64 -> deadline0 -> callback S) : callback S :=
  fun acc =>
    match LoadDeadlines (State s) (store s) with
    | Fail f => (acc, Some (Raised f))
    | Ok dls =>
        Deadlines_ForEach dls (store s)
          (fun i dl => cb i (mkdeadline0 dl (store s))) acc
    end.

Definition ForEachPartition {S} (d : deadline0)
    (cb : uint64 -> partition0 -> callback S) : callback S :=
  fun acc =>
    match PartitionsArray (d_Deadline d) (d_store d) with
    | Fail f => (acc, Some (Raised f))
    | Ok ps =>
        Array_ForEach ps
          (fun part i => cb (uint64_of_int64 i) (mkpartition0 part (d_store d))) acc
    end.

(** Modelled from the spec: the interface [Deadline] implemented by one
    adapter per schema version is declared outside this file;
    [other.( *deadline0)] succeeds on the first variant only. *)
Inductive DeadlineIface : Type :=
| IsDeadline0 (d : deadline0)
| LaterDeadline (version : nat).

Definition PartitionsChanged (d : deadline0) (other : DeadlineIface) : bool :=
  match other with
  | IsDeadline0 other0 =>
      Cid_Equals (Partitions (d_Deadline d)) (Partitions (d_Deadline other0))
  | LaterDeadline _ =>
      (* treat an upgrade as a change, always *)
      true
  end.

Definition deadline0_PostSubmissions (d : deadline0) : BitField * option error :=
  (PostSubmissions (d_Deadline d), None).

Definition AllSectors (p : partition0) : BitField * option error :=
  (Sectors (p_Partition p), None).

Definition FaultySectors (p : partition0) : BitField * option error :=
  (Faults (p_Partition p), None).

Definition RecoveringSectors (p : partition0) : BitField * option error :=
  (Recoveries (p_Partition p), None).

(** *** The holders of a sector *)

(** The entry [m] of the partitions array of the deadline slot [n] holds
    [num] in its [Sectors]. *)
Definition holder (s : state00) (num : SectorNumber) (n m : nat) : Prop :=
  exists dls c dl parts partIdx part,
    LoadDeadlines (State s) (store s) = Ok dls /\
    nth_error (Due dls) n = Some c /\
    get_Deadline (store s) c = Ok dl /\
    PartitionsArray dl (store s) = Ok parts /\
    nth_error (arr_scan parts) m = Some (Ok (partIdx, part)) /\
    IsSet (Sectors part) num = (true, None).

(** The uniqueness invariant of the data model, for [num]: at most one
    pair of a deadline and a partition has [num] in its [Sectors]. *)
Definition unique_holder (s : state00) (num : SectorNumber) : Prop :=
  forall n m n' m', holder s num n m -> holder s num n' m' -> n = n' /\ m = m'.

(** The traversal of the array can be read to its end and delivers no entry
    at the index [num]. *)
Definition absent_from {V} (a : Array V) (num : uint64) : Prop :=
  map Ok (delivered (arr_scan a)) = arr_scan a /\
  ~ In num (map (fun entry => uint64_of_int64 (fst entry)) (delivered (arr_scan a))).

(** *** What the iterations visit *)

(** The deadlines, with their indices, that [ForEachDeadline] hands to a
    visitor that records them and never asks to stop; the same for the
    partitions of [ForEachPartition]. *)
Definition deadlines_seen (s : state00) : list (uint64 * deadline0) :=
  fst (ForEachDeadline s (fun i d seen => (seen ++ [(i, d)], None)) []).

Definition partitions_seen (d : deadline0) : list (uint64 * partition0) :=
  fst (ForEachPartition d (fun i p seen => (seen ++ [(i, p)], None)) []).

(** The deadlines of the slots before the first one that cannot be loaded. *)
Fixpoint loaded_deadlines (st : Store0) (due : list Cid) : list Deadline :=
  match due with
  | [] => []
  | c :: rest =>
      match get_Deadline st c with
      | Ok dl => dl :: loaded_deadlines st rest
      | Fail _ => []
      end
  end.

(** The elements of a list with their indices, counted from [i]. *)
Fixpoint indexed_from {A} (i : uint64) (l : list A) : list (uint64 * A) :=
  match l with
  | [] => []
  | a :: rest => (i, a) :: indexed_from (i + 1) rest
  end.

(** A partition that the iterations deliver holds [num] and has not
    terminated it, and its queue delivers a set keyed [epoch] that lists
    [num] in [EarlySectors] (for [early] true) or in [OnTimeSectors]. *)
Definition live_record (s : state00) (num : SectorNumber) (early : bool)
    (epoch : ChainEpoch) : Prop :=
  exists dls dl parts partIdx part a exp,
    LoadDeadlines (State s) (store s) = Ok dls /\
    In dl (loaded_deadlines (store s) (Due dls)) /\
    PartitionsArray dl (store s) = Ok parts /\
    In (partIdx, part) (delivered (arr_scan parts)) /\
    IsSet (Sectors part) num = (true, None) /\
    IsSet (Terminated part) num = (false, None) /\
    get_Expirations (store s) (ExpirationsEpochs part) = Ok a /\
    In (epoch, exp) (delivered (arr_scan a)) /\
    IsSet (if early then EarlySectors exp else OnTimeSectors exp) num = (true, None).

(** Each epoch of [out'] is the one of [out] or satisfies the predicate of
    its slot. *)
Definition origin (E O : ChainEpoch -> Prop) (out out' : SectorExpiration) : Prop :=
  (Early out' = Early out \/ E (Early out')) /\
  (OnTime out' = OnTime out \/ O (OnTime out')).

(** The set [exp] lists [num] in the bit field of the slot. *)
Definition lists (num : SectorNumber) (early : bool) (exp : ExpirationSet) : Prop :=
  IsSet (if early then EarlySectors exp else OnTimeSectors exp) num = (true, None).

(** *** What the expiration query reads *)

(** Two entries of a queue with the same key and the same answers for
    [num], or the same failure. *)
Definition same_set (num : SectorNumber) (X X' : result (int64 * ExpirationSet))
    : Prop :=
  match X, X' with
  | Ok (epoch, exp), Ok (epoch', exp') =>
      epoch = epoch' /\
      IsSet (EarlySectors exp) num = IsSet (EarlySectors exp') num /\
      (IsSet (EarlySectors exp) num = (false, None) ->
       IsSet (OnTimeSectors exp) num = IsSet (OnTimeSectors exp') num)
  | Fail f, Fail f' => f = f'
  | _, _ => False
  end.

Definition same_queue (num : SectorNumber) (r r' : result (Array ExpirationSet))
    : Prop :=
  match r, r' with
  | Ok a, Ok a' => Forall2 (same_set num) (arr_scan a) (arr_scan a')
  | Fail f, Fail f' => f = f'
  | _, _ => False
  end.

(** Two entries of a partitions array that answer alike for [num]: the
    same in [Sectors]; if it is there, the same in [Terminated]; if it is not
    terminated, queues that read alike. *)
Definition same_partition (st st' : Store0) (num : SectorNumber)
    (X X' : result (int64 * Partition)) : Prop :=
  match X, X' with
  | Ok (_, part), Ok (_, part') =>
      IsSet (Sectors part) num = IsSet (Sectors part') num /\
      (IsSet (Sectors part) num = (true, None) ->
       IsSet (Terminated part) num = IsSet (Terminated part') num /\
       (IsSet (Terminated part) num = (false, None) ->
        same_queue num (get_Expirations st (ExpirationsEpochs part))
                       (get_Expirations st' (ExpirationsEpochs part'))))
  | Fail f, Fail f' => f = f'
  | _, _ => False
  end.

Definition same_deadline (st st' : Store0) (num : SectorNumber) (c c' : Cid)
    : Prop :=
  match get_Deadline st c, get_Deadline st' c' with
  | Ok dl, Ok dl' =>
      match PartitionsArray dl st, PartitionsArray dl' st' with
      | Ok ps, Ok ps' => Forall2 (same_partition st st' num) (arr_scan ps) (arr_scan ps')
      | Fail f, Fail f' => f = f'
      | _, _ => False
      end
  | Fail f, Fail f' => f = f'
  | _, _ => False
  end.

(** Two snapshots that read alike for [num] along the traversal. *)
Definition same_for (s s' : state00) (num : SectorNumber) : Prop :=
  match LoadDeadlines (State s) (store s), LoadDeadlines (State s') (store s') with
  | Ok dls, Ok dls' =>
      Forall2 (same_deadline (store s) (store s') num) (Due dls) (Due dls')
  | Fail f, Fail f' => f = f'
  | _, _ => False
  end.

End Adapters.

(* ------------------------------------------------------------------ *)
(** ** Example snapshots *)

Module Examples.

(** A table of stored objects: an address that is not in the table cannot
    be resolved. *)
Fixpoint resolve {A} (tbl : list (Cid * A)) (c : Cid) : result A :=
  match tbl with
  | [] => Fail (StorageError c)
  | (k, v) :: rest => if k =? c then Ok v else resolve rest c
  end.

Fixpoint assoc {V} (l : list (int64 * V)) (idx : uint64) : option V :=
  match l with
  | [] => None
  | (k, v) :: rest => if uint64_of_int64 k =? idx then Some v else assoc rest idx
  end.

(** The largest index of a stored array. *)
Definition MaxIndex : uint64 := 2 ^ 63 - 1.

(** An array all of whose nodes can be read; as the stored arrays do, its
    [Get] refuses an index above [MaxIndex]. *)
Definition array_of {V} (l : list (int64 * V)) : Array V :=
  mkArray (fun idx => if MaxIndex <? idx then Fail (IndexError idx)
                      else Ok (assoc l idx))
          (map Ok l).

Definition set_of (onTime early : list uint64) : ExpirationSet :=
  mkExpirationSet (Runs onTime) (Runs early).

Definition partition_of (sectors faults terminated : list uint64) (queue : Cid)
    : Partition :=
  mkPartition (Runs sectors) (Runs faults) (Runs []) (Runs terminated) queue.

(** A quantization spec: unit and offset. *)
Definition QuantSpecEx : Type := (ChainEpoch * ChainEpoch)%type.

Definition quantEx (st : State0) (dlIdx : uint64) : QuantSpecEx :=
  (2880, st_ProvingPeriodStart st + 60 * dlIdx).

Definition bad_bits : fault := DecodeError "bitfield".

(** Two deadlines; sector 5 is in partition 2 of the first one only, sector 9
    is terminated in partition 1 and still listed in its queue, sector 7 has
    an early record at 800 and an on-time record at 1200, sector 8 an on-time
    record keyed 0, sector 4 is in both bit fields of one set, and the queue
    of sector 11 has a corrupt bit field after its early record. *)
Definition expirations : list (Cid * Array ExpirationSet) :=
  [ (30, array_of [(900, set_of [1] []); (1100, set_of [2] [])]);
    (31, array_of [(500, set_of [9] [9]); (1000, set_of [3] [])]);
    (32, array_of [(1000, set_of [5] [])]);
    (33, array_of [(0, set_of [8] []); (800, set_of [] [7]); (1200, set_of [7] [])]);
    (34, array_of [(700, set_of [4] [4])]);
    (35, array_of [(600, set_of [] [11]);
                   (900, mkExpirationSet (Corrupt bad_bits) (Runs []))]) ].

Definition partitions20 : Array Partition :=
  array_of [ (0, partition_of [1; 2] [] [] 30);
             (1, partition_of [3; 9] [] [9] 31);
             (2, partition_of [5; 6] [] [] 32) ].

Definition partitions21 : Array Partition :=
  array_of [ (0, partition_of [7; 8] [7] [] 33);
             (1, partition_of [4] [] [] 34);
             (2, partition_of [11] [11] [] 35) ].

Definition sectorInfos : Array string :=
  array_of [(1, "s1"); (2, "s2"); (3, "s3"); (5, "s5"); (7, "s7"); (8, "s8")]%string.

Definition store1 : Store string string :=
  {| get_Deadlines := resolve [(1, mkDeadlines [10; 11])];
     get_Deadline := resolve [(10, mkDeadline 20 (Runs [])); (11, mkDeadline 21 (Runs []))];
     get_Partitions := resolve [(20, partitions20); (21, partitions21)];
     get_Expirations := resolve expirations;
     get_SectorInfos := resolve [(2, sectorInfos)];
     get_PreCommits := resolve [(4, mkMap (fun idx => Ok (assoc [(12, "p12"%string)] idx)))];
     get_BitField := resolve [(3, Runs [1; 2; 3; 4; 5; 6; 7; 8; 9; 11; 12])];
     find_Sector := fun _ num => Fail (StorageError num) |}.

Definition st1 : State0 :=
  {| st_Sectors := 2; st_PreCommittedSectors := 4; st_AllocatedSectors := 3;
     st_Deadlines := 1; st_ProvingPeriodStart := 100 |}.

Definition snapshot1 : state0 string string :=
  mkstate0 st1 store1.

(** A snapshot that lists sector 9 in two partitions: live, with an early
    record at 600, in partition 0, and terminated in partition 1. *)
Definition store2 : Store string string :=
  {| get_Deadlines := resolve [(1, mkDeadlines [10])];
     get_Deadline := resolve [(10, mkDeadline 20 (Runs []))];
     get_Partitions :=
       resolve [(20, array_of [ (0, partition_of [9] [9] [] 30);
                                (1, partition_of [9] [] [9] 31) ])];
     get_Expirations :=
       resolve [ (30, array_of [(600, set_of [] [9])]);
                 (31, array_of (@nil (int64 * ExpirationSet))) ];
     get_SectorInfos := resolve [(2, sectorInfos)];
     get_PreCommits := resolve [];
     get_BitField := resolve [(3, Runs [9])];
     find_Sector := fun _ num => Fail (StorageError num) |}.

Definition snapshot2 : state0 string string :=
  mkstate0 st1 store2.

(** A snapshot that reads like the first one for sector 7 and differs
    elsewhere: other addresses and partition indices, corrupt [Faults] and
    [PostSubmissions], more sectors in the bit fields, sector 8 terminated. *)
Definition store3 : Store string string :=
  {| get_Deadlines := resolve [(1, mkDeadlines [60; 61])];
     get_Deadline :=
       resolve [(60, mkDeadline 70 (Corrupt bad_bits)); (61, mkDeadline 71 (Runs [0]))];
     get_Partitions :=
       resolve
         [ (70, array_of
                  [ (4, mkPartition (Runs [1; 2; 100]) (Corrupt bad_bits) (Runs [])
                          (Runs [7]) 80);
                    (5, mkPartition (Runs [3]) (Runs []) (Runs []) (Corrupt bad_bits) 81);
                    (6, partition_of [5; 6] [] [] 82) ]);
           (71, array_of
                  [ (0, mkPartition (Runs [8; 7; 200]) (Corrupt bad_bits)
                          (Corrupt bad_bits) (Runs [8]) 83);
                    (3, partition_of [4] [] [] 84);
                    (9, partition_of [11] [11] [] 85) ]) ];
     get_Expirations :=
       resolve
         [ (83, array_of [ (0, set_of [8; 300] []);
                           (800, mkExpirationSet (Corrupt bad_bits) (Runs [7; 8]));
                           (1200, set_of [9; 7] [12]) ]) ];
     get_SectorInfos := resolve [];
     get_PreCommits := resolve [];
     get_BitField := resolve [];
     find_Sector := fun _ num => Fail (StorageError num) |}.

Definition snapshot3 : state0 string string :=
  mkstate0 (mkState0 0 0 0 1 7) store3.

(** The error of the collaborator for a deadline index out of range. *)
Definition no_such_deadline (dlIdx : uint64) : fault :=
  DecodeError "invalid deadline".

End Examples.

(* ------------------------------------------------------------------ *)
(** ** The iteration of the collaborators *)

Section Iteration.

Context {V S : Type}.
Implicit Types (fn : V -> int64 -> callback S) (scan : list (result (int64 * V))).

(** Entries scanned without an error are behind the iteration. *)
Lemma ForEach_scan_app fn before rest (s s1 : S) :
  ForEach_scan before fn s = (s1, None) ->
  ForEach_scan (before ++ rest) fn s = ForEach_scan rest fn s1.
Proof.
  revert s. induction before as [|[[i v]|f] before IH]; intros s H; simpl in *.
  - now inversion H.
  - destruct (fn v i s) as [s' [e|]]; [discriminate | now apply IH].
  - discriminate.
Qed.

(** A relation between the captured value before and after a call, and the
    returned error, which holds of doing nothing, of a failed read, and of
    one call after calls that returned nil, holds of the whole iteration. *)
Lemma ForEach_scan_rel (Q : S -> S -> option error -> Prop) fn scan :
  (forall s, Q s s None) ->
  (forall s f, Q s s (Some (Raised f))) ->
  (forall s s1 s2 e, Q s s1 None -> Q s1 s2 e -> Q s s2 e) ->
  (forall i v, In (Ok (i, v)) scan -> forall s s' e, fn v i s = (s', e) -> Q s s' e) ->
  forall s s' e, ForEach_scan scan fn s = (s', e) -> Q s s' e.
Proof.
  intros Qnil Qfail Qseq. induction scan as [|[[i v]|f] scan IH]; intros Hfn s s' e H;
    simpl in H.
  - inversion H; subst; apply Qnil.
  - destruct (fn v i s) as [s1 [e1|]] eqn:E.
    + inversion H; subst. eapply Hfn; [now left | exact E].
    + eapply Qseq; [eapply Hfn; [now left | exact E] |].
      apply IH; [| exact H]. intros i' v' Hin. apply Hfn. now right.
  - inversion H; subst; apply Qfail.
Qed.

(** An iteration that returns an error stopped at one entry, after the
    entries before it had been scanned without one. *)
Lemma ForEach_scan_error fn scan (s s' : S) e :
  ForEach_scan scan fn s = (s', Some e) ->
  exists before X after s1,
    scan = before ++ X :: after /\
    ForEach_scan before fn s = (s1, None) /\
    match X with
    | Fail f => e = Raised f /\ s' = s1
    | Ok (i, v) => fn v i s1 = (s', Some e)
    end.
Proof.
  revert s. induction scan as [|[[i v]|f] scan IH]; intros s H; simpl in H.
  - discriminate.
  - destruct (fn v i s) as [s1 [e1|]] eqn:E.
    + inversion H; subst. exists [], (Ok (i, v)), scan, s. auto.
    + destruct (IH _ H) as (before & X & after & s2 & -> & Hb & HX).
      exists (Ok (i, v) :: before), X, after, s2. repeat split; auto.
      simpl. now rewrite E.
  - inversion H; subst. exists [], (Fail f), scan, s'. auto.
Qed.

End Iteration.

Section DeadlinesIteration.

Context {A B S : Type}.
Implicit Types (st : Store A B) (cb : uint64 -> Deadline -> callback S).

Lemma Deadlines_ForEach_from_app st cb before rest dlIdx (s s1 : S) :
  Deadlines_ForEach_from st before dlIdx cb s = (s1, None) ->
  Deadlines_ForEach_from st (before ++ rest) dlIdx cb s
  = Deadlines_ForEach_from st rest (dlIdx + Z.of_nat (List.length before)) cb s1.
Proof.
  revert dlIdx s. induction before as [|c before IH]; intros dlIdx s H; simpl in H.
  - inversion H; subst. simpl. now rewrite Z.add_0_r.
  - cbn [app Deadlines_ForEach_from].
    destruct (get_Deadline st c) as [dl|f]; [|discriminate].
    destruct (cb dlIdx dl s) as [s' [e|]]; [discriminate|].
    rewrite (IH _ _ H). f_equal. cbn [List.length]. lia.
Qed.

Lemma Deadlines_ForEach_from_rel (Q : S -> S -> option error -> Prop) st cb due :
  (forall s, Q s s None) ->
  (forall s f, Q s s (Some (Raised f))) ->
  (forall s s1 s2 e, Q s s1 None -> Q s1 s2 e -> Q s s2 e) ->
  (forall i c dl, In c due -> get_Deadline st c = Ok dl ->
     forall s s' e, cb i dl s = (s', e) -> Q s s' e) ->
  forall dlIdx s s' e, Deadlines_ForEach_from st due dlIdx cb s = (s', e) -> Q s s' e.
Proof.
  intros Qnil Qfail Qseq. induction due as [|c due IH]; intros Hcb dlIdx s s' e H;
    simpl in H.
  - inversion H; subst; apply Qnil.
  - destruct (get_Deadline st c) as [dl|f] eqn:Ec.
    + destruct (cb dlIdx dl s) as [s1 [e1|]] eqn:E.
      * inversion H; subst. eapply Hcb; [now left | exact Ec | exact E].
      * eapply Qseq; [eapply Hcb; [now left | exact Ec | exact E] |].
        eapply IH; [| exact H]. intros i c' dl' Hin. apply Hcb. now right.
    + inversion H; subst; apply Qfail.
Qed.

Lemma Deadlines_ForEach_from_error st cb due dlIdx (s s' : S) e :
  Deadlines_ForEach_from st due dlIdx cb s = (s', Some e) ->
  exists before c after s1,
    due = before ++ c :: after /\
    Deadlines_ForEach_from st before dlIdx cb s = (s1, None) /\
    match get_Deadline st c with
    | Fail f => e = Raised f /\ s' = s1
    | Ok dl => cb (dlIdx + Z.of_nat (List.length before)) dl s1 = (s', Some e)
    end.
Proof.
  revert dlIdx s. induction due as [|c due IH]; intros dlIdx s H; simpl in H.
  - discriminate.
  - destruct (get_Deadline st c) as [dl|f] eqn:Ec.
    + destruct (cb dlIdx dl s) as [s1 [e1|]] eqn:E.
      * inversion H; subst. exists [], c, due, s. rewrite Ec. simpl.
        rewrite Z.add_0_r. auto.
      * destruct (IH _ _ H) as (before & c' & after & s2 & -> & Hb & HX).
        exists (c :: before), c', after, s2. repeat split; auto.
        -- simpl. now rewrite Ec, E.
        -- replace (dlIdx + Z.of_nat (List.length (c :: before)))
             with (dlIdx + 1 + Z.of_nat (List.length before))
             by (cbn [List.length]; lia).
           exact HX.
    + inversion H; subst. exists [], c, due, s'. rewrite Ec. auto.
Qed.

End DeadlinesIteration.

(* ------------------------------------------------------------------ *)
(** ** The expiration traversal *)

Section Traversal.

Variables SectorOnChainInfo0 SectorPreCommitOnChainInfo0 QuantSpec : Type.
Variable QuantSpecForDeadline : State0 -> uint64 -> QuantSpec.

Implicit Types (s : state0 SectorOnChainInfo0 SectorPreCommitOnChainInfo0).
Implicit Types (num : SectorNumber) (out : SectorExpiration) (err : option error).
Implicit Types (quant : QuantSpec).

Local Abbreviation scanDl := (scanDeadline QuantSpecForDeadline).
Local Abbreviation run := (runs_to QuantSpecForDeadline).
Local Abbreviation atDl := (at_deadline QuantSpecForDeadline).
Local Abbreviation atPart := (at_partition QuantSpecForDeadline).
Local Abbreviation atExp := (at_expiration QuantSpecForDeadline).
Local Abbreviation GSE := (GetSectorExpiration QuantSpecForDeadline).

(** What [GetSectorExpiration] makes of the outcome of its scans. *)
Lemma GetSectorExpiration_of_run s num out err :
  run s num out err ->
  GSE s num =
    match err with
    | None | Some stopErr =>
        if (Early out =? 0) && (OnTime out =? 0) then (None, None)
        else (Some out, None)
    | Some e => (None, Some e)
    end.
Proof.
  intros (dls & Hl & Ht). unfold GetSectorExpiration. rewrite Hl, Ht.
  destruct err as [[| |]|]; reflexivity.
Qed.

(** *** From a position of the traversal to its end *)

Lemma deadline_unreadable s num dlIdx c out f :
  atDl s num dlIdx c out ->
  get_Deadline (store s) c = Fail f ->
  run s num out (Some (Raised f)).
Proof.
  intros (dls & before & after & Hl & Hd & Hi & Hb) Hc.
  exists dls; split; [exact Hl|].
  unfold traverse, Deadlines_ForEach. rewrite Hd.
  erewrite Deadlines_ForEach_from_app by exact Hb. simpl. now rewrite Hc.
Qed.

Lemma deadline_ends s num dlIdx c out dl out' e :
  atDl s num dlIdx c out ->
  get_Deadline (store s) c = Ok dl ->
  scanDl s num dlIdx dl out = (out', Some e) ->
  run s num out' (Some e).
Proof.
  intros (dls & before & after & Hl & Hd & Hi & Hb) Hc Hcb.
  exists dls; split; [exact Hl|].
  unfold traverse, Deadlines_ForEach. rewrite Hd.
  erewrite Deadlines_ForEach_from_app by exact Hb. simpl.
  rewrite Hc, <- Hi, Hcb. reflexivity.
Qed.

Lemma partition_unreadable s num dlIdx out f :
  atPart s num dlIdx (Fail f) out ->
  run s num out (Some (Raised f)).
Proof.
  intros (c & dl & parts & out0 & before & after & Hd & Hc & Hp & Hs & Hb).
  eapply deadline_ends; [exact Hd | exact Hc |].
  unfold scanDeadline. rewrite Hp. unfold Array_ForEach. rewrite Hs.
  erewrite ForEach_scan_app by exact Hb. reflexivity.
Qed.

Lemma partition_ends s num dlIdx partIdx part out out' e :
  atPart s num dlIdx (Ok (partIdx, part)) out ->
  scanPartition s num (QuantSpecForDeadline (State s) dlIdx) part partIdx out
    = (out', Some e) ->
  run s num out' (Some e).
Proof.
  intros (c & dl & parts & out0 & before & after & Hd & Hc & Hp & Hs & Hb) Hcb.
  eapply deadline_ends; [exact Hd | exact Hc |].
  unfold scanDeadline. rewrite Hp. unfold Array_ForEach. rewrite Hs.
  erewrite ForEach_scan_app by exact Hb. simpl. rewrite Hcb. reflexivity.
Qed.

Lemma expiration_unreadable s num out f :
  atExp s num (Fail f) out ->
  run s num out (Some (Raised f)).
Proof.
  intros (dlIdx & partIdx & part & out0 & q & before & after
          & Hp & Hsec & Hter & Hq & Hs & Hb).
  eapply partition_ends; [exact Hp|].
  unfold scanPartition. rewrite Hsec, Hter, Hq. unfold Array_ForEach. rewrite Hs.
  erewrite ForEach_scan_app by exact Hb. reflexivity.
Qed.

Lemma expiration_ends s num epoch exp out out' e :
  atExp s num (Ok (epoch, exp)) out ->
  scanExpirationSet num exp epoch out = (out', Some e) ->
  run s num out' (Some e).
Proof.
  intros (dlIdx & partIdx & part & out0 & q & before & after
          & Hp & Hsec & Hter & Hq & Hs & Hb) Hcb.
  eapply partition_ends; [exact Hp|].
  unfold scanPartition. rewrite Hsec, Hter, Hq. unfold Array_ForEach. rewrite Hs.
  erewrite ForEach_scan_app by exact Hb. simpl. rewrite Hcb. reflexivity.
Qed.

(** *** What the scans leave in the captured result *)

Lemma scan_effect_nil (st : Store SectorOnChainInfo0 SectorPreCommitOnChainInfo0)
    num out :
  scan_effect st num out out None.
Proof. unfold scan_effect; auto. Qed.

Lemma scan_effect_fail (st : Store SectorOnChainInfo0 SectorPreCommitOnChainInfo0)
    num out f :
  scan_effect st num out out (Some (Raised f)).
Proof.
  unfold scan_effect; repeat split; auto.
  right; right; now exists f.
Qed.

Lemma scan_effect_seq (st : Store SectorOnChainInfo0 SectorPreCommitOnChainInfo0)
    num out out1 out2 err :
  scan_effect st num out out1 None ->
  scan_effect st num out1 out2 err ->
  scan_effect st num out out2 err.
Proof.
  intros (_ & H1 & H2 & H3) (K0 & K1 & K2 & K3).
  assert (E : OnTime out1 = OnTime out) by (apply H1; discriminate).
  repeat split.
  - exact K0.
  - intros N. now rewrite (K1 N).
  - destruct K2 as [K2|K2]; [rewrite K2; exact H2 | now right].
  - destruct K3 as [K3|K3]; [left; congruence | now right].
Qed.

Lemma IsSet_cases (bf : BitField) (i : uint64) :
  (exists b, IsSet bf i = (b, None)) \/ (exists f, bf = Corrupt f /\ IsSet bf i = (false, Some (Raised f))).
Proof. destruct bf; simpl; eauto. Qed.

Lemma scanExpirationSet_effect
    (st : Store SectorOnChainInfo0 SectorPreCommitOnChainInfo0) root a
    num epoch exp out out' err :
  get_Expirations st root = Ok a ->
  In (Ok (epoch, exp)) (arr_scan a) ->
  scanExpirationSet num exp epoch out = (out', err) ->
  scan_effect st num out out' err.
Proof.
  intros Ha Hin H. unfold scanExpirationSet in H.
  destruct (IsSet_cases (EarlySectors exp) num) as [[b E]|(f & _ & E)];
    rewrite E in H.
  - destruct b.
    + inversion H; subst. unfold scan_effect; simpl. repeat split; auto.
      right. exists root, a, exp. auto.
    + destruct (IsSet_cases (OnTimeSectors exp) num) as [[b' E']|(f & _ & E')];
        rewrite E' in H.
      * destruct b'; inversion H; subst.
        -- unfold scan_effect; simpl. repeat split; auto.
           ++ intros N; now elim N.
           ++ right. exists root, a, exp. auto.
        -- apply scan_effect_nil.
      * inversion H; subst. apply scan_effect_fail.
  - inversion H; subst. apply scan_effect_fail.
Qed.

Lemma scanPartition_effect s num quant part partIdx out out' err :
  scanPartition s num quant part partIdx out = (out', err) ->
  scan_effect (store s) num out out' err.
Proof.
  intros H. unfold scanPartition in H.
  destruct (IsSet_cases (Sectors part) num) as [[b E]|(f & _ & E)]; rewrite E in H.
  2: { inversion H; subst. apply scan_effect_fail. }
  destruct b; [| inversion H; subst; apply scan_effect_nil].
  destruct (IsSet_cases (Terminated part) num) as [[b E']|(f & _ & E')];
    rewrite E' in H.
  2: { inversion H; subst. apply scan_effect_fail. }
  destruct b.
  { inversion H; subst. unfold scan_effect. repeat split; auto. }
  unfold LoadExpirationQueue in H.
  destruct (get_Expirations (store s) (ExpirationsEpochs part)) as [a|f] eqn:Ea.
  2: { inversion H; subst. apply scan_effect_fail. }
  unfold Array_ForEach in H; simpl in H.
  revert H. apply ForEach_scan_rel with (Q := scan_effect (store s) num).
  - intros; apply scan_effect_nil.
  - intros; apply scan_effect_fail.
  - intros; eapply scan_effect_seq; eauto.
  - intros i v Hin o o' e Hcb. eapply scanExpirationSet_effect; eauto.
Qed.

Lemma partitions_effect s num quant scan out out' err :
  ForEach_scan scan (scanPartition s num quant) out = (out', err) ->
  scan_effect (store s) num out out' err.
Proof.
  apply ForEach_scan_rel with (Q := scan_effect (store s) num).
  - intros; apply scan_effect_nil.
  - intros; apply scan_effect_fail.
  - intros; eapply scan_effect_seq; eauto.
  - intros i v _ o o' e Hcb. eapply scanPartition_effect; eauto.
Qed.

Lemma scanDeadline_effect s num dlIdx dl out out' err :
  scanDl s num dlIdx dl out = (out', err) ->
  scan_effect (store s) num out out' err.
Proof.
  unfold scanDeadline.
  destruct (PartitionsArray dl (store s)) as [parts|f].
  - apply partitions_effect.
  - intros H; inversion H; subst. apply scan_effect_fail.
Qed.

Lemma deadlines_effect s num due dlIdx out out' err :
  Deadlines_ForEach_from (store s) due dlIdx (scanDl s num) out = (out', err) ->
  scan_effect (store s) num out out' err.
Proof.
  apply Deadlines_ForEach_from_rel with (Q := scan_effect (store s) num).
  - intros; apply scan_effect_nil.
  - intros; apply scan_effect_fail.
  - intros; eapply scan_effect_seq; eauto.
  - intros i c dl _ _ o o' e Hcb. eapply scanDeadline_effect; eauto.
Qed.

Lemma run_effect s num out err :
  run s num out err ->
  scan_effect (store s) num (mkSectorExpiration 0 0) out err.
Proof. intros (dls & _ & Ht). eapply deadlines_effect; exact Ht. Qed.

Lemma at_deadline_effect s num dlIdx c out :
  atDl s num dlIdx c out ->
  scan_effect (store s) num (mkSectorExpiration 0 0) out None.
Proof.
  intros (dls & before & after & _ & _ & _ & Hb). eapply deadlines_effect; exact Hb.
Qed.

Lemma at_partition_effect s num dlIdx X out :
  atPart s num dlIdx X out ->
  scan_effect (store s) num (mkSectorExpiration 0 0) out None.
Proof.
  intros (c & dl & parts & out0 & before & after & Hd & _ & _ & _ & Hb).
  eapply scan_effect_seq; [eapply at_deadline_effect; exact Hd |].
  eapply partitions_effect; exact Hb.
Qed.

Lemma at_expiration_effect s num Y out :
  atExp s num Y out ->
  scan_effect (store s) num (mkSectorExpiration 0 0) out None.
Proof.
  intros (dlIdx & partIdx & part & out0 & q & before & after
          & Hp & _ & _ & Hq & Hs & Hb).
  eapply scan_effect_seq; [eapply at_partition_effect; exact Hp |].
  unfold LoadExpirationQueue in Hq.
  destruct (get_Expirations (store s) (ExpirationsEpochs part)) as [a|f] eqn:Ea;
    [|discriminate].
  inversion Hq; subst q; simpl in Hs.
  revert Hb. apply ForEach_scan_rel with (Q := scan_effect (store s) num).
  - intros; apply scan_effect_nil.
  - intros; apply scan_effect_fail.
  - intros; eapply scan_effect_seq; eauto.
  - intros i v Hin o o' e Hcb. eapply scanExpirationSet_effect; eauto.
    rewrite Hs. apply in_or_app. now left.
Qed.

(** *** Partitions that do not hold the sector are passed over *)

Lemma skip_partitions s num quant scan out :
  Forall (fun X => exists partIdx part,
            X = Ok (partIdx, part) /\ IsSet (Sectors part) num = (false, None)) scan ->
  ForEach_scan scan (scanPartition s num quant) out = (out, None).
Proof.
  induction 1 as [|X scan (partIdx & part & -> & Hsec) _ IH]; simpl; auto.
  unfold scanPartition at 1. now rewrite Hsec.
Qed.

Lemma skip_deadlines s num dls dlIdx out :
  in_no_partition (store s) dls num ->
  Deadlines_ForEach_from (store s) (Due dls) dlIdx (scanDl s num) out = (out, None).
Proof.
  unfold in_no_partition. intros H. revert dlIdx.
  induction H as [|c due (dl & parts & Hc & Hp & Hall) _ IH]; intros dlIdx; simpl; auto.
  rewrite Hc. unfold scanDeadline at 1, PartitionsArray, Array_ForEach.
  rewrite Hp. erewrite skip_partitions by exact Hall. apply IH.
Qed.

Lemma first_holder_at s num dlIdx X :
  first_holder s num dlIdx X ->
  atPart s num dlIdx X (mkSectorExpiration 0 0).
Proof.
  intros (dls & before & c & after & dl & parts & pb & pa
          & Hl & Hd & Hi & Hno & Hc & Hp & Hs & Hall).
  exists c, dl, parts, (mkSectorExpiration 0 0), pb, pa.
  repeat split; auto.
  - exists dls, before, after. repeat split; auto.
    exact (@skip_deadlines s num (mkDeadlines before) 0 _ Hno).
  - now apply skip_partitions.
Qed.

(* ------------------------------------------------------------------ *)
(** ** Terminated sectors, early records and on-time records *)

(** When the traversal reaches a partition that
    holds [num] in [Sectors] and in [Terminated], it ends there with the stop
    value, which is returned as no error; nothing that comes after that
    partition and no queue of that partition is read, so the captured result
    is the one the traversal arrived with.  Its on-time epoch is 0, and the
    query reports not-found exactly when its early epoch is 0 too: an early
    epoch recorded from a partition scanned before is returned.  When that
    partition is the first one to hold [num], the query reports not-found. *)
Theorem terminated_ends_traversal s num dlIdx partIdx part out :
  atPart s num dlIdx (Ok (partIdx, part)) out ->
  IsSet (Sectors part) num = (true, None) ->
  IsSet (Terminated part) num = (true, None) ->
  run s num out (Some stopErr) /\
  OnTime out = 0 /\
  GSE s num = (if Early out =? 0 then None else Some out, None) /\
  (first_holder s num dlIdx (Ok (partIdx, part)) ->
   GSE s num = (None, None)).
Proof.
  intros Hat Hsec Hter.
  assert (Hrun : run s num out (Some stopErr)).
  { eapply partition_ends; [exact Hat|].
    unfold scanPartition. now rewrite Hsec, Hter. }
  destruct (at_partition_effect Hat) as (_ & Hon & _ & _).
  assert (E : OnTime out = 0) by (apply Hon; discriminate).
  repeat split; auto.
  - rewrite (GetSectorExpiration_of_run Hrun), E.
    simpl. rewrite andb_true_r. now destruct (Early out =? 0).
  - intros Hfirst. apply first_holder_at in Hfirst.
    assert (Hrun0 : run s num (mkSectorExpiration 0 0) (Some stopErr)).
    { eapply partition_ends; [exact Hfirst|].
      unfold scanPartition. now rewrite Hsec, Hter. }
    now rewrite (GetSectorExpiration_of_run Hrun0).
Qed.

(** C3, as the code has it: on an expiration set that lists [num] in
    [EarlySectors], the scan records the set's epoch as [Early], leaves
    [OnTime] as it was without reading [OnTimeSectors] of that set, returns
    nil and goes on with the next set of the queue. *)
Theorem early_record_continues num epoch exp out
    (rest : list (result (int64 * ExpirationSet))) :
  IsSet (EarlySectors exp) num = (true, None) ->
  scanExpirationSet num exp epoch out = (mkSectorExpiration (OnTime out) epoch, None) /\
  ForEach_scan (Ok (epoch, exp) :: rest) (scanExpirationSet num) out
  = ForEach_scan rest (scanExpirationSet num) (mkSectorExpiration (OnTime out) epoch).
Proof.
  intros H.
  assert (E : scanExpirationSet num exp epoch out
              = (mkSectorExpiration (OnTime out) epoch, None)).
  { unfold scanExpirationSet. now rewrite H. }
  split; [exact E|]. simpl. now rewrite E.
Qed.

(** C4, as the code has it: on an expiration set, reached by the scan, that
    lists [num] in [OnTimeSectors] and not in [EarlySectors], the scan
    records the set's epoch as [OnTime] and ends the queue scan and the
    whole traversal with the stop value; the query returns that epoch with
    the early epoch recorded so far (not-found when both are 0).  When no
    queue of the store has an early record of [num] and the epoch is not 0,
    the result is that epoch and an early epoch of 0. *)
Theorem ontime_record_ends_traversal s num epoch exp out :
  atExp s num (Ok (epoch, exp)) out ->
  IsSet (EarlySectors exp) num = (false, None) ->
  IsSet (OnTimeSectors exp) num = (true, None) ->
  run s num (mkSectorExpiration epoch (Early out)) (Some stopErr) /\
  GSE s num =
    (if (Early out =? 0) && (epoch =? 0) then None
     else Some (mkSectorExpiration epoch (Early out)), None) /\
  ((forall e, ~ early_record (store s) num e) -> epoch <> 0 ->
   GSE s num = (Some (mkSectorExpiration epoch 0), None)).
Proof.
  intros Hat Hearly Hon.
  assert (Hrun : run s num (mkSectorExpiration epoch (Early out)) (Some stopErr)).
  { eapply expiration_ends; [exact Hat|].
    unfold scanExpirationSet. now rewrite Hearly, Hon. }
  assert (HG := GetSectorExpiration_of_run Hrun). simpl in HG.
  repeat split; auto.
  { rewrite HG. now destruct ((Early out =? 0) && (epoch =? 0)). }
  intros Hno Hne. rewrite HG.
  destruct (at_expiration_effect Hat) as (_ & _ & [E|E] & _).
  - simpl in E. rewrite E. simpl.
    destruct (Z.eqb_spec epoch 0); [contradiction | reflexivity].
  - elim (Hno _ E).
Qed.

(** C9: a scan that ends, without a collaborator's error, with both epochs
    of the captured result equal to 0 is reported as not-found; this is the
    case when every record of [num] in the queues of the store is keyed 0, so
    a record keyed 0 cannot be told from no record. *)
Theorem epoch_zero_is_not_found s num out err :
  run s num out err ->
  (forall f, err <> Some (Raised f)) ->
  (Early out = 0 -> OnTime out = 0 -> GSE s num = (None, None)) /\
  ((forall epoch, early_record (store s) num epoch -> epoch = 0) ->
   (forall epoch, ontime_record (store s) num epoch -> epoch = 0) ->
   Early out = 0 /\ OnTime out = 0 /\ GSE s num = (None, None)).
Proof.
  intros Hrun Hnf.
  assert (A : Early out = 0 -> OnTime out = 0 -> GSE s num = (None, None)).
  { intros E1 E2. rewrite (GetSectorExpiration_of_run Hrun), E1, E2.
    destruct (run_effect Hrun) as ([->|[->|[f ->]]] & _); try reflexivity.
    now elim (Hnf f). }
  split; [exact A|].
  intros He Ho.
  destruct (run_effect Hrun) as (_ & _ & HE & HO). simpl in HE, HO.
  assert (E1 : Early out = 0) by (destruct HE as [E|E]; [exact E | exact (He _ E)]).
  assert (E2 : OnTime out = 0) by (destruct HO as [E|E]; [exact E | exact (Ho _ E)]).
  auto.
Qed.

(* ------------------------------------------------------------------ *)
(** ** Errors of the traversal *)

(** A failing collaborator ends the scans with its error. *)
Lemma raises_run s num f :
  raises QuantSpecForDeadline s num f ->
  LoadDeadlines (State s) (store s) = Fail f \/
  exists out, run s num out (Some (Raised f)).
Proof.
  intros [H | dlIdx c out Hat Hc | dlIdx c out dl Hat Hc Hp | dlIdx out Hat
         | dlIdx partIdx part out Hat Hsec
         | dlIdx partIdx part out Hat Hsec Hter
         | dlIdx partIdx part out Hat Hsec Hter Hq
         | out Hat | epoch exp out Hat He | epoch exp out Hat He Ho].
  - now left.
  - right; exists out. eapply deadline_unreadable; eauto.
  - right; exists out. eapply deadline_ends; eauto.
    unfold scanDeadline. now rewrite Hp.
  - right; exists out. eapply partition_unreadable; eauto.
  - right; exists out. eapply partition_ends; eauto.
    unfold scanPartition. now rewrite Hsec.
  - right; exists out. eapply partition_ends; eauto.
    unfold scanPartition. now rewrite Hsec, Hter.
  - right; exists out. eapply partition_ends; eauto.
    unfold scanPartition, LoadExpirationQueue. now rewrite Hsec, Hter, Hq.
  - right; exists out. eapply expiration_unreadable; eauto.
  - right; exists out. eapply expiration_ends; eauto.
    unfold scanExpirationSet. now rewrite He.
  - right; exists out. eapply expiration_ends; eauto.
    unfold scanExpirationSet. now rewrite He, Ho.
Qed.

(** Scans that end with a collaborator's error stopped at a failing call. *)
Lemma run_raises s num out f :
  run s num out (Some (Raised f)) -> raises QuantSpecForDeadline s num f.
Proof.
  intros (dls & Hl & Ht). unfold traverse, Deadlines_ForEach in Ht.
  destruct (Deadlines_ForEach_from_error _ _ _ _ _ Ht)
    as (before & c & after & out0 & Hd & Hb & HX).
  assert (Hat : atDl s num (Z.of_nat (List.length before)) c out0).
  { exists dls, before, after. auto. }
  simpl in HX.
  destruct (get_Deadline (store s) c) as [dl|f'] eqn:Ec.
  2: { destruct HX as [E _]. inversion E; subst. eapply raises_LoadDeadline; eauto. }
  unfold scanDeadline in HX.
  destruct (PartitionsArray dl (store s)) as [parts|f'] eqn:Ep.
  2: { inversion HX; subst. eapply raises_PartitionsArray; eauto. }
  unfold Array_ForEach in HX.
  destruct (ForEach_scan_error _ _ _ HX) as (pb & X & pa & out1 & Hs & Hpb & HY).
  assert (HatP : atPart s num (Z.of_nat (List.length before)) X out1).
  { exists c, dl, parts, out0, pb, pa. auto. }
  destruct X as [[partIdx part]|f'].
  2: { destruct HY as [E _]. inversion E; subst.
       eapply raises_partitions_ForEach; eauto. }
  unfold scanPartition in HY.
  destruct (IsSet_cases (Sectors part) num) as [[b E]|(f' & Ec' & E)];
    rewrite E in HY.
  2: { inversion HY; subst. eapply raises_Sectors_IsSet; eauto. }
  destruct b; [|discriminate].
  destruct (IsSet_cases (Terminated part) num) as [[b E']|(f' & Ec' & E')];
    rewrite E' in HY.
  2: { inversion HY; subst. eapply raises_Terminated_IsSet; eauto. }
  destruct b; [discriminate|].
  destruct (LoadExpirationQueue (store s) (ExpirationsEpochs part)
              (QuantSpecForDeadline (State s) (Z.of_nat (List.length before))))
    as [q|f'] eqn:Eq.
  2: { inversion HY; subst. eapply raises_LoadExpirationQueue; eauto.
       unfold LoadExpirationQueue in Eq.
       destruct (get_Expirations (store s) (ExpirationsEpochs part));
         [discriminate | congruence]. }
  unfold Array_ForEach in HY.
  destruct (ForEach_scan_error _ _ _ HY) as (qb & Y & qa & out2 & Hq & Hqb & HZ).
  assert (HatE : atExp s num Y out2).
  { exists (Z.of_nat (List.length before)), partIdx, part, out1, q, qb, qa. auto 10. }
  destruct Y as [[epoch exp]|f'].
  2: { destruct HZ as [E0 _]. inversion E0; subst.
       eapply raises_queue_ForEach; eauto. }
  unfold scanExpirationSet in HZ.
  destruct (IsSet_cases (EarlySectors exp) num) as [[b E1]|(f' & Ec' & E1)];
    rewrite E1 in HZ.
  2: { inversion HZ; subst. eapply raises_EarlySectors_IsSet; eauto. }
  destruct b; [discriminate|].
  destruct (IsSet_cases (OnTimeSectors exp) num) as [[b E2]|(f' & Ec' & E2)];
    rewrite E2 in HZ.
  2: { inversion HZ; subst. eapply raises_OnTimeSectors_IsSet; eauto. }
  destruct b; discriminate.
Qed.

(** C6: a collaborator that fails with [f] during the query makes it return
    a nil result with the error [f] as it is, whatever had been recorded; the
    stop value of the scans becomes no error; and every error the query
    returns comes with a nil result and is the error of a collaborator that
    failed during the query, never the stop value. *)
Theorem collaborator_errors_surface s num :
  (forall f, raises QuantSpecForDeadline s num f ->
     GSE s num = (None, Some (Raised f))) /\
  (forall out, run s num out (Some stopErr) -> snd (GSE s num) = None) /\
  (forall e, snd (GSE s num) = Some e ->
     e <> stopErr /\ fst (GSE s num) = None /\
     exists f, e = Raised f /\ raises QuantSpecForDeadline s num f).
Proof.
  split; [|split].
  - intros f Hr. destruct (raises_run Hr) as [Hl | [out Hrun]].
    + unfold GetSectorExpiration. now rewrite Hl.
    + now rewrite (GetSectorExpiration_of_run Hrun).
  - intros out Hrun. rewrite (GetSectorExpiration_of_run Hrun).
    now destruct ((Early out =? 0) && (OnTime out =? 0)).
  - intros e He.
    destruct (LoadDeadlines (State s) (store s)) as [dls|f] eqn:Hl.
    + destruct (traverse QuantSpecForDeadline s num dls) as [out err] eqn:Ht.
      assert (Hrun : run s num out err) by (exists dls; auto).
      rewrite (GetSectorExpiration_of_run Hrun) in He |- *.
      destruct (run_effect Hrun) as ([->|[->|[f ->]]] & _).
      * destruct ((Early out =? 0) && (OnTime out =? 0)); discriminate.
      * destruct ((Early out =? 0) && (OnTime out =? 0)); discriminate.
      * simpl in He. inversion He; subst e. repeat split; [discriminate|].
        exists f. split; [reflexivity|]. eapply run_raises; exact Hrun.
    + unfold GetSectorExpiration in He |- *. rewrite Hl in He |- *.
      simpl in He. inversion He; subst e. repeat split; [discriminate|].
      exists f. split; [reflexivity|]. now apply raises_LoadDeadlines.
Qed.

(* ------------------------------------------------------------------ *)
(** ** Sectors that were never allocated *)


End Traversal.

(* ------------------------------------------------------------------ *)
(** ** Direct lookups, the filtered view and the comparison of deadlines *)

Section Lookups.

Variables SectorOnChainInfo0 SectorPreCommitOnChainInfo0 : Type.
Implicit Types (s : state0 SectorOnChainInfo0 SectorPreCommitOnChainInfo0).
Implicit Types (num : SectorNumber).

(** The two lookups have one shape: load the collection, [Get], and keep
    the value only when it was found without an error. *)
Lemma lookup_shape {A V} (load : result A) (get : A -> result (option V))
    (w : option V * option error) :
  w = (let '(info, ok, err) :=
         match load with
         | Fail f => (None, false, Some (Raised f))
         | Ok a =>
             match get a with
             | Fail f => (None, false, Some (Raised f))
             | Ok None => (None, false, None)
             | Ok (Some info) => (Some info, true, None)
             end
         end in
       if negb ok || is_error err then (None, err)
       else match info with
            | Some info => (Some info, None)
            | None => (None, None)
            end) ->
  (w = (None, None) <-> exists a, load = Ok a /\ get a = Ok None) /\
  (forall e, w = (None, Some e) <->
     exists f, e = Raised f /\
       (load = Fail f \/ exists a, load = Ok a /\ get a = Fail f)) /\
  (forall info e, w = (Some info, e) <->
     e = None /\ exists a, load = Ok a /\ get a = Ok (Some info)).
Proof.
  intros ->.
  destruct load as [a|f1]; [destruct (get a) as [[info1|]|f1] eqn:Eg|]; simpl;
    (split; [|split]); intros; (split; intros H);
    repeat match goal with
    | H : exists _, _ |- _ => destruct H
    | H : _ /\ _ |- _ => destruct H
    | H : _ \/ _ |- _ => destruct H
    | H : Ok _ = Ok _ |- _ => inversion H; subst; clear H
    | H : (_, _) = (_, _) |- _ => inversion H; subst; clear H
    end;
    try discriminate; try congruence; eauto 10.
Qed.

(** C7, as the code has it: [GetSector] and [GetPrecommittedSector]
    return a nil value and a nil error exactly when the lookup of the
    collaborator (load the collection, then [Get]) completes and does not
    find the number; when the load or the [Get] fails they return a nil value
    and that error, whether the number is in the collection or not; and they
    return a value, with a nil error, exactly when the [Get] finds it. *)
Theorem lookup_results s num :
  (GetSector s num = (None, None) <->
   exists sectors, AsArray (store s) (st_Sectors (State s)) = Ok sectors /\
                   arr_get sectors num = Ok None) /\
  (forall e, GetSector s num = (None, Some e) <->
     exists f, e = Raised f /\
       (AsArray (store s) (st_Sectors (State s)) = Fail f \/
        exists sectors, AsArray (store s) (st_Sectors (State s)) = Ok sectors /\
                        arr_get sectors num = Fail f)) /\
  (forall info e, GetSector s num = (Some info, e) <->
     e = None /\
     exists sectors, AsArray (store s) (st_Sectors (State s)) = Ok sectors /\
                     arr_get sectors num = Ok (Some info)) /\
  (GetPrecommittedSector s num = (None, None) <->
   exists precommitted,
     get_PreCommits (store s) (st_PreCommittedSectors (State s)) = Ok precommitted /\
     map_get precommitted num = Ok None) /\
  (forall e, GetPrecommittedSector s num = (None, Some e) <->
     exists f, e = Raised f /\
       (get_PreCommits (store s) (st_PreCommittedSectors (State s)) = Fail f \/
        exists precommitted,
          get_PreCommits (store s) (st_PreCommittedSectors (State s)) = Ok precommitted /\
          map_get precommitted num = Fail f)) /\
  (forall info e, GetPrecommittedSector s num = (Some info, e) <->
     e = None /\
     exists precommitted,
       get_PreCommits (store s) (st_PreCommittedSectors (State s)) = Ok precommitted /\
       map_get precommitted num = Ok (Some info)).
Proof.
  destruct (lookup_shape (AsArray (store s) (st_Sectors (State s)))
              (fun sectors => arr_get sectors num) (w := GetSector s num) eq_refl)
    as (G1 & G2 & G3).
  destruct (lookup_shape
              (get_PreCommits (store s) (st_PreCommittedSectors (State s)))
              (fun precommitted => map_get precommitted num)
              (w := GetPrecommittedSector s num) eq_refl)
    as (P1 & P2 & P3).
  split; [exact G1 | split; [exact G2 | split; [exact G3 |
    split; [exact P1 | split; [exact P2 | exact P3]]]]].
Qed.

(** The closure [incl] computes the inclusion predicate of the spec on a
    filter that decodes. *)
Lemma incl_included (bits : option (list uint64)) filterOut i :
  incl (option_map Runs bits) filterOut i = (included bits filterOut i, None).
Proof.
  destruct bits as [members|]; simpl; [|reflexivity].
  destruct (existsb (Z.eqb i) members), filterOut; reflexivity.
Qed.

Lemma restricted_ForEach {V S} (bits : option (list uint64)) filterOut
    (fn : V -> int64 -> callback S) scan (acc0 : S) :
  ForEach_scan scan
    (fun v i acc =>
       match incl (option_map Runs bits) filterOut (uint64_of_int64 i) with
       | (_, Some err) => (acc, Some err)
       | (false, None) => (acc, None)
       | (true, None) => fn v i acc
       end) acc0
  = ForEach_scan (restricted bits filterOut scan) fn acc0.
Proof.
  revert acc0. induction scan as [|[[i v]|f] scan IH]; intros acc0; simpl; auto.
  rewrite incl_included.
  destruct (included bits filterOut (uint64_of_int64 i)); simpl; [|apply IH].
  destruct (fn v i acc0) as [acc1 [e|]]; auto.
Qed.

Lemma recorded_indices {V} (scan : list (result (int64 * V))) (seen : list int64) :
  fst (ForEach_scan scan (fun _ i seen0 => (seen0 ++ [i], None)) seen)
  = seen ++ map fst (delivered scan).
Proof.
  revert seen. induction scan as [|[[i v]|f] scan IH]; intros seen; simpl.
  - now rewrite app_nil_r.
  - rewrite IH, <- app_assoc. reflexivity.
  - now rewrite app_nil_r.
Qed.

Lemma delivered_restricted {V} bits filterOut (scan : list (result (int64 * V))) :
  map fst (delivered (restricted bits filterOut scan))
  = filter (fun i => included bits filterOut (uint64_of_int64 i))
           (map fst (delivered scan)).
Proof.
  induction scan as [|[[i v]|f] scan IH]; simpl; auto.
  destruct (included bits filterOut (uint64_of_int64 i)); simpl; now rewrite ?IH.
Qed.

Lemma filter_StronglySorted (p : Z -> bool) (l : list Z) :
  StronglySorted Z.lt l -> StronglySorted Z.lt (filter p l).
Proof.
  induction 1 as [|x l Hs IH Hall]; simpl; [constructor|].
  destruct (p x); [|exact IH].
  constructor; [exact IH|].
  apply Forall_forall. intros y Hy. apply filter_In in Hy.
  rewrite Forall_forall in Hall. now apply Hall.
Qed.

(** C5: over the sectors array [a] and a bit-set filter with its polarity
    flag, or no filter, the view of [LoadSectorsFromSet] gives at an included
    index what [a.Get] gives and at an excluded index not-found without an
    error, whatever [a] holds there; its [ForEach] is the traversal of [a]
    restricted to the included indices, so it visits exactly the included
    indices that [a] delivers, in the order of [a], which is ascending when
    that of [a] is. *)
Theorem filtered_view_roundtrip s (bits : option (list uint64)) filterOut a :
  AsArray (store s) (st_Sectors (State s)) = Ok a ->
  exists view,
    LoadSectorsFromSet s (option_map Runs bits) filterOut = (Some view, None) /\
    (forall idx, included bits filterOut idx = true ->
       GetFunc view idx = Array_Get a idx) /\
    (forall idx, included bits filterOut idx = false ->
       GetFunc view idx = (None, None)) /\
    (forall S (fn : SectorOnChainInfo0 -> int64 -> callback S) (acc : S),
       ForEachFunc view fn acc
       = ForEach_scan (restricted bits filterOut (arr_scan a)) fn acc) /\
    visited view
    = filter (fun i => included bits filterOut (uint64_of_int64 i))
             (map fst (delivered (arr_scan a))) /\
    (forall i, In i (visited view) <->
       In i (map fst (delivered (arr_scan a))) /\
       included bits filterOut (uint64_of_int64 i) = true) /\
    (StronglySorted Z.lt (map fst (delivered (arr_scan a))) ->
     StronglySorted Z.lt (visited view)).
Proof.
  intros Ha. unfold LoadSectorsFromSet. rewrite Ha.
  eexists; split; [reflexivity|].
  match goal with
  | |- context [visited ?view] =>
      assert (Hv : visited view
                   = filter (fun i => included bits filterOut (uint64_of_int64 i))
                            (map fst (delivered (arr_scan a))))
  end.
  { unfold visited, Array_ForEach; simpl.
    rewrite restricted_ForEach, recorded_indices. simpl.
    apply delivered_restricted. }
  split; [|split; [|split; [|split; [|split]]]].
  - intros idx Hi. simpl. now rewrite incl_included, Hi.
  - intros idx Hi. simpl. now rewrite incl_included, Hi.
  - intros S fn acc. simpl. unfold Array_ForEach. apply restricted_ForEach.
  - exact Hv.
  - intros i. rewrite Hv. now rewrite filter_In.
  - rewrite Hv. apply filter_StronglySorted.
Qed.

(** C10: with a nil filter the closure [incl] includes every index for both
    values of [filterOut] and never fails, and the view of
    [LoadSectorsFromSet] is the sectors array: its [Get] and its [ForEach]
    are those of the array. *)
Theorem nil_filter_is_identity s filterOut a :
  AsArray (store s) (st_Sectors (State s)) = Ok a ->
  exists view,
    LoadSectorsFromSet s None filterOut = (Some view, None) /\
    (forall i, incl None filterOut i = (true, None)) /\
    (forall idx, GetFunc view idx = Array_Get a idx) /\
    (forall S (fn : SectorOnChainInfo0 -> int64 -> callback S) (acc : S),
       ForEachFunc view fn acc = Array_ForEach a fn acc).
Proof.
  intros Ha. unfold LoadSectorsFromSet. rewrite Ha.
  eexists; split; [reflexivity|]. repeat split.
Qed.

(** C2, what the code does: against a state of the same schema version
    [DeadlinesChanged] returns the result of [Equals] on the two [Deadlines],
    so a state compared with itself is reported as changed. *)
Theorem DeadlinesChanged_returns_Equals s :
  DeadlinesChanged s (IsState0 s) = true /\
  (forall other0,
     DeadlinesChanged s (IsState0 other0)
     = Cid_Equals (st_Deadlines (State s)) (st_Deadlines (State other0))) /\
  (forall version, DeadlinesChanged s (LaterVersion _ _ version) = true).
Proof.
  repeat split. unfold DeadlinesChanged, Cid_Equals. apply Z.eqb_refl.
Qed.

End Lookups.

(* ------------------------------------------------------------------ *)
(** ** The theorems on the example snapshots *)

Import Examples.

Local Abbreviation zero := (mkSectorExpiration 0 0).

Local Abbreviation p20_0 := (partition_of [1; 2] [] [] 30).
Local Abbreviation p20_1 := (partition_of [3; 9] [] [9] 31).
Local Abbreviation p20_2 := (partition_of [5; 6] [] [] 32).
Local Abbreviation p21_0 := (partition_of [7; 8] [7] [] 33).
Local Abbreviation p21_1 := (partition_of [4] [] [] 34).
Local Abbreviation p21_2 := (partition_of [11] [11] [] 35).

(** Positions of the traversal of the first snapshot. *)
Lemma at_first_deadline num : at_deadline quantEx snapshot1 num 0 10 zero.
Proof. exists (mkDeadlines [10; 11]), [], [11]. repeat split. Defined.

Lemma at_terminated_9 : at_partition quantEx snapshot1 9 0 (Ok (1, p20_1)) zero.
Proof.
  exists 10, (mkDeadline 20 (Runs [])), partitions20, zero, [Ok (0, p20_0)],
    [Ok (2, p20_2)].
  split; [apply at_first_deadline | repeat split].
Defined.

Lemma at_partition_of_5 : at_partition quantEx snapshot1 5 0 (Ok (2, p20_2)) zero.
Proof.
  exists 10, (mkDeadline 20 (Runs [])), partitions20, zero,
    [Ok (0, p20_0); Ok (1, p20_1)], [].
  split; [apply at_first_deadline | repeat split].
Defined.

Lemma at_record_of_5 :
  at_expiration quantEx snapshot1 5 (Ok (1000, set_of [5] [])) zero.
Proof.
  exists 0, 2, p20_2, zero,
    (mkExpirationQueue (array_of [(1000, set_of [5] [])]) (quantEx st1 0)), [], [].
  split; [apply at_partition_of_5 | repeat split].
Defined.

Lemma at_second_deadline_4 : at_deadline quantEx snapshot1 4 1 11 zero.
Proof. exists (mkDeadlines [10; 11]), [10], []. repeat split. Defined.

Lemma at_record_of_4 :
  at_expiration quantEx snapshot1 4 (Ok (700, set_of [4] [4])) zero.
Proof.
  exists 1, 1, p21_1, zero,
    (mkExpirationQueue (array_of [(700, set_of [4] [4])]) (quantEx st1 1)), [], [].
  split; [| repeat split].
  exists 11, (mkDeadline 21 (Runs [])), partitions21, zero, [Ok (0, p21_0)],
    [Ok (2, p21_2)].
  split; [apply at_second_deadline_4 | repeat split].
Defined.

Lemma at_second_deadline_11 : at_deadline quantEx snapshot1 11 1 11 zero.
Proof. exists (mkDeadlines [10; 11]), [10], []. repeat split. Defined.

Lemma at_corrupt_set_11 :
  at_expiration quantEx snapshot1 11
    (Ok (900, mkExpirationSet (Corrupt bad_bits) (Runs [])))
    (mkSectorExpiration 0 600).
Proof.
  exists 1, 2, p21_2, zero,
    (mkExpirationQueue
       (array_of [(600, set_of [] [11]);
                  (900, mkExpirationSet (Corrupt bad_bits) (Runs []))])
       (quantEx st1 1)),
    [Ok (600, set_of [] [11])], [].
  split; [| repeat split].
  exists 11, (mkDeadline 21 (Runs [])), partitions21, zero,
    [Ok (0, p21_0); Ok (1, p21_1)], [].
  split; [apply at_second_deadline_11 | repeat split].
Defined.

(** In the second snapshot the traversal reaches the partition that has
    terminated sector 9 with the early epoch 600 of the partition before. *)
Lemma at_terminated_9_dup :
  at_partition quantEx snapshot2 9 0 (Ok (1, partition_of [9] [] [9] 31))
    (mkSectorExpiration 0 600).
Proof.
  exists 10, (mkDeadline 20 (Runs [])),
    (array_of [(0, partition_of [9] [9] [] 30); (1, partition_of [9] [] [9] 31)]),
    zero, [Ok (0, partition_of [9] [9] [] 30)], [].
  split; [| repeat split].
  exists (mkDeadlines [10]), [], []. repeat split.
Defined.

(** Scenario 3 of the spec: sector 9, terminated in the one partition that
    holds it, is not found, although the queue of that partition lists it. *)
Lemma terminated_ends_traversal_witness :
  at_partition quantEx snapshot1 9 0 (Ok (1, p20_1)) zero /\
  IsSet (Sectors p20_1) 9 = (true, None) /\
  IsSet (Terminated p20_1) 9 = (true, None) /\
  early_record store1 9 500 /\
  GetSectorExpiration quantEx snapshot1 9 = (None, None).
Proof.
  split; [exact at_terminated_9|].
  split; [reflexivity|]. split; [reflexivity|]. split.
  - exists 31, (array_of [(500, set_of [9] [9]); (1000, set_of [3] [])]), (set_of [9] [9]).
    repeat split. now left.
  - exact (proj1 (proj2 (proj2 (terminated_ends_traversal at_terminated_9 eq_refl eq_refl)))).
Defined.

(** On a snapshot that breaks the uniqueness of the holder, with sector 9
    live in one partition and terminated in the next one, the query returns
    the early epoch of the queue scanned before. *)
Lemma terminated_after_early_record_is_found :
  at_partition quantEx snapshot2 9 0 (Ok (1, partition_of [9] [] [9] 31))
    (mkSectorExpiration 0 600) /\
  IsSet (Sectors (partition_of [9] [] [9] 31)) 9 = (true, None) /\
  IsSet (Terminated (partition_of [9] [] [9] 31)) 9 = (true, None) /\
  GetSectorExpiration quantEx snapshot2 9 = (Some (mkSectorExpiration 0 600), None) /\
  GetSectorExpiration quantEx snapshot2 9 <> (None, None).
Proof.
  split; [exact at_terminated_9_dup|]. repeat split. discriminate.
Qed.

Lemma early_record_continues_witness :
  IsSet (EarlySectors (set_of [4] [4])) 4 = (true, None) /\
  scanExpirationSet 4 (set_of [4] [4]) 700 zero = (mkSectorExpiration 0 700, None).
Proof.
  split; [reflexivity|].
  exact (proj1 (early_record_continues 4 700 (set_of [4] [4]) zero [] eq_refl)).
Defined.

(** C3 fails as stated: sector 4 is in [EarlySectors] and in [OnTimeSectors]
    of the set keyed 700, and the query returns that epoch as [Early] only. *)
Lemma early_and_ontime_in_one_set_gives_early_only :
  at_expiration quantEx snapshot1 4 (Ok (700, set_of [4] [4])) zero /\
  IsSet (EarlySectors (set_of [4] [4])) 4 = (true, None) /\
  IsSet (OnTimeSectors (set_of [4] [4])) 4 = (true, None) /\
  GetSectorExpiration quantEx snapshot1 4 = (Some (mkSectorExpiration 0 700), None) /\
  GetSectorExpiration quantEx snapshot1 4 <> (Some (mkSectorExpiration 700 700), None).
Proof.
  split; [exact at_record_of_4|]. repeat split. discriminate.
Qed.

(** Scenario 1 of the spec. *)
Lemma ontime_record_ends_traversal_witness :
  at_expiration quantEx snapshot1 5 (Ok (1000, set_of [5] [])) zero /\
  IsSet (EarlySectors (set_of [5] [])) 5 = (false, None) /\
  IsSet (OnTimeSectors (set_of [5] [])) 5 = (true, None) /\
  GetSectorExpiration quantEx snapshot1 5 = (Some (mkSectorExpiration 1000 0), None).
Proof.
  split; [exact at_record_of_5|].
  split; [reflexivity|]. split; [reflexivity|].
  exact (proj1 (proj2 (ontime_record_ends_traversal at_record_of_5 eq_refl eq_refl))).
Defined.

(** C4 fails as stated: the scan reaches the set keyed 700, which lists the
    live sector 4 in [OnTimeSectors], and records no on-time epoch and does
    not stop: the three scans end with a nil error and [OnTime] is 0. *)
Lemma ontime_member_not_recorded :
  at_expiration quantEx snapshot1 4 (Ok (700, set_of [4] [4])) zero /\
  IsSet (OnTimeSectors (set_of [4] [4])) 4 = (true, None) /\
  IsSet (Terminated p21_1) 4 = (false, None) /\
  runs_to quantEx snapshot1 4 (mkSectorExpiration 0 700) None /\
  fst (GetSectorExpiration quantEx snapshot1 4) <> Some (mkSectorExpiration 700 0) /\
  fst (GetSectorExpiration quantEx snapshot1 4) <> Some (mkSectorExpiration 700 700).
Proof.
  split; [exact at_record_of_4|]. repeat split; try discriminate.
  exists (mkDeadlines [10; 11]). repeat split.
Qed.

(** A failure after an early record: the epoch 600 recorded for sector 11 is
    dropped and the error of the bit field is returned. *)
Lemma collaborator_errors_surface_witness :
  raises quantEx snapshot1 11 bad_bits /\
  GetSectorExpiration quantEx snapshot1 11 = (None, Some (Raised bad_bits)).
Proof.
  assert (H : raises quantEx snapshot1 11 bad_bits).
  { eapply raises_OnTimeSectors_IsSet;
      [exact at_corrupt_set_11 | reflexivity | reflexivity]. }
  split; [exact H|].
  exact (proj1 (collaborator_errors_surface quantEx snapshot1 11) bad_bits H).
Defined.

Lemma lookup_results_witness :
  arr_get sectorInfos 42 = Ok None /\
  GetSector snapshot1 42 = (None, None) /\
  GetPrecommittedSector snapshot1 42 = (None, None).
Proof.
  split; [reflexivity|]. split.
  - apply (proj1 (lookup_results snapshot1 42)).
    exists sectorInfos. split; reflexivity.
  - apply (proj1 (proj2 (proj2 (proj2 (lookup_results snapshot1 42))))).
    eexists. split; reflexivity.
Defined.

(** C7 fails as stated: the sector number 2^63 is not in the sectors array
    of the first snapshot, and [GetSector] returns the error of the array,
    which refuses that index. *)
Lemma absent_above_MaxIndex_is_an_error :
  AsArray (store snapshot1) (st_Sectors (State snapshot1)) = Ok sectorInfos /\
  absent_from sectorInfos (2 ^ 63) /\
  GetSector snapshot1 (2 ^ 63) = (None, Some (Raised (IndexError (2 ^ 63)))) /\
  GetSector snapshot1 (2 ^ 63) <> (None, None).
Proof.
  split; [reflexivity|]. split; [|split; [reflexivity | discriminate]].
  split; [reflexivity|]. vm_compute. intros H.
  repeat (destruct H as [H|H]; [discriminate H|]). exact H.
Qed.



(** A sector whose one record is an on-time record keyed 0 is not found. *)
Lemma epoch_zero_is_not_found_witness :
  ontime_record store1 8 0 /\
  runs_to quantEx snapshot1 8 zero (Some stopErr) /\
  GetSectorExpiration quantEx snapshot1 8 = (None, None).
Proof.
  assert (H : runs_to quantEx snapshot1 8 zero (Some stopErr)).
  { exists (mkDeadlines [10; 11]). repeat split. }
  split; [|split; [exact H|]].
  - exists 33,
      (array_of [(0, set_of [8] []); (800, set_of [] [7]); (1200, set_of [7] [])]),
      (set_of [8] []).
    repeat split. now left.
  - refine (proj1 (epoch_zero_is_not_found H _) eq_refl eq_refl).
    intros f; discriminate.
Defined.

(** The live sectors 2 and 5 out of the array, and the others hidden. *)
Lemma filtered_view_roundtrip_witness :
  AsArray (store snapshot1) (st_Sectors (State snapshot1)) = Ok sectorInfos /\
  exists view,
    LoadSectorsFromSet snapshot1 (Some (Runs [2; 5])) false = (Some view, None) /\
    visited view = [2; 5] /\
    GetFunc view 2 = (Some "s2"%string, None) /\
    GetFunc view 3 = (None, None).
Proof.
  split; [reflexivity|].
  destruct (@filtered_view_roundtrip _ _ snapshot1 (Some [2; 5]) false sectorInfos
              eq_refl)
    as (view & Hload & Hin & Hout & _ & Hvis & _).
  exists view. split; [exact Hload|]. split; [exact Hvis|].
  split; [exact (Hin 2 eq_refl) | exact (Hout 3 eq_refl)].
Defined.

Lemma nil_filter_is_identity_witness :
  AsArray (store snapshot1) (st_Sectors (State snapshot1)) = Ok sectorInfos /\
  exists view,
    LoadSectorsFromSet snapshot1 None true = (Some view, None) /\
    GetFunc view 3 = (Some "s3"%string, None) /\
    visited view = [1; 2; 3; 5; 7; 8].
Proof.
  split; [reflexivity|].
  destruct (@nil_filter_is_identity _ _ snapshot1 true sectorInfos eq_refl)
    as (view & Hload & _ & Hget & Hfe).
  exists view. split; [exact Hload|]. split; [exact (Hget 3)|].
  unfold visited. rewrite Hfe. reflexivity.
Defined.

(* ------------------------------------------------------------------ *)
(** ** What the iterations deliver *)

Section Delivered.

Context {V S : Type}.
Implicit Types (fn : V -> int64 -> callback S) (scan : list (result (int64 * V))).

(** A reflexive and transitive relation that every call on a delivered
    entry keeps is kept by the iteration. *)
Lemma ForEach_scan_delivered (Q : S -> S -> Prop) fn scan :
  (forall a, Q a a) ->
  (forall a b c, Q a b -> Q b c -> Q a c) ->
  (forall i v, In (i, v) (delivered scan) ->
     forall a a' e, fn v i a = (a', e) -> Q a a') ->
  forall a a' e, ForEach_scan scan fn a = (a', e) -> Q a a'.
Proof.
  intros Qrefl Qtrans. induction scan as [|[[i v]|f] scan IH]; intros Hfn a a' e H;
    simpl in H.
  - inversion H; subst; apply Qrefl.
  - destruct (fn v i a) as [a1 [e1|]] eqn:E.
    + inversion H; subst. eapply Hfn; [now left | exact E].
    + eapply Qtrans; [eapply Hfn; [now left | exact E] |].
      eapply IH; [| exact H]. intros i' v' Hin. apply Hfn. now right.
  - inversion H; subst; apply Qrefl.
Qed.

(** An iteration that returned no error delivered every entry. *)
Lemma ForEach_scan_all_delivered fn scan (a a' : S) :
  ForEach_scan scan fn a = (a', None) -> map Ok (delivered scan) = scan.
Proof.
  revert a. induction scan as [|[[i v]|f] scan IH]; intros a H; simpl in *; auto.
  - destruct (fn v i a) as [a1 [e1|]]; [discriminate|]. f_equal. eapply IH; eauto.
  - discriminate.
Qed.

(** The visitor that records what it is given sees the delivered entries,
    in their order. *)
Lemma ForEach_scan_record {T} (g : V -> int64 -> T) scan (seen : list T) :
  fst (ForEach_scan scan (fun v i seen0 => (seen0 ++ [g v i], None)) seen)
  = seen ++ map (fun entry => g (snd entry) (fst entry)) (delivered scan).
Proof.
  revert seen. induction scan as [|[[i v]|f] scan IH]; intros seen; simpl.
  - now rewrite app_nil_r.
  - rewrite IH, <- app_assoc. reflexivity.
  - now rewrite app_nil_r.
Qed.

End Delivered.

Section LoadedDeadlines.

Context {A B S : Type}.
Implicit Types (st : Store A B) (cb : uint64 -> Deadline -> callback S).

Lemma Deadlines_ForEach_from_loaded (Q : S -> S -> Prop) st cb due :
  (forall a, Q a a) ->
  (forall a b c, Q a b -> Q b c -> Q a c) ->
  (forall i dl, In dl (loaded_deadlines st due) ->
     forall a a' e, cb i dl a = (a', e) -> Q a a') ->
  forall dlIdx a a' e, Deadlines_ForEach_from st due dlIdx cb a = (a', e) -> Q a a'.
Proof.
  intros Qrefl Qtrans. induction due as [|c due IH]; intros Hcb dlIdx a a' e H;
    simpl in H.
  - inversion H; subst; apply Qrefl.
  - simpl in Hcb. destruct (get_Deadline st c) as [dl|f] eqn:Ec.
    + destruct (cb dlIdx dl a) as [a1 [e1|]] eqn:E.
      * inversion H; subst. eapply Hcb; [now left | exact E].
      * eapply Qtrans; [eapply Hcb; [now left | exact E] |].
        eapply IH; [| exact H]. intros i dl' Hin. apply Hcb. now right.
    + inversion H; subst; apply Qrefl.
Qed.

Lemma Deadlines_ForEach_from_record {T} (g : uint64 -> Deadline -> T) st due dlIdx
    (seen : list T) :
  fst (Deadlines_ForEach_from st due dlIdx
         (fun i dl seen0 => (seen0 ++ [g i dl], None)) seen)
  = seen ++ map (fun entry => g (fst entry) (snd entry))
                (indexed_from dlIdx (loaded_deadlines st due)).
Proof.
  revert dlIdx seen. induction due as [|c due IH]; intros dlIdx seen; simpl.
  - now rewrite app_nil_r.
  - destruct (get_Deadline st c) as [dl|f]; simpl.
    + rewrite IH, <- app_assoc. reflexivity.
    + now rewrite app_nil_r.
Qed.

(** With no error, every slot was loaded. *)
Lemma Deadlines_ForEach_from_all_loaded st cb due dlIdx (a a' : S) :
  Deadlines_ForEach_from st due dlIdx cb a = (a', None) ->
  Forall2 (fun c dl => get_Deadline st c = Ok dl) due (loaded_deadlines st due).
Proof.
  revert dlIdx a. induction due as [|c due IH]; intros dlIdx a H; simpl in *.
  - constructor.
  - destruct (get_Deadline st c) as [dl|f] eqn:Ec; [|discriminate].
    destruct (cb dlIdx dl a) as [a1 [e1|]]; [discriminate|].
    constructor; [exact Ec | eapply IH; eauto].
Qed.

Lemma loaded_deadlines_nth st due n dl :
  nth_error (loaded_deadlines st due) n = Some dl ->
  exists c, nth_error due n = Some c /\ get_Deadline st c = Ok dl.
Proof.
  revert n. induction due as [|c due IH]; intros n H; simpl in H.
  - destruct n; discriminate.
  - destruct (get_Deadline st c) as [dl0|f] eqn:Ec.
    + destruct n as [|n]; simpl in *.
      * inversion H; subst. eauto.
      * apply IH in H. exact H.
    + destruct n; discriminate.
Qed.

End LoadedDeadlines.

Lemma indexed_from_In {A} (l : list A) (i k : uint64) (a : A) :
  In (k, a) (indexed_from i l) <->
  exists n, k = i + Z.of_nat n /\ nth_error l n = Some a.
Proof.
  revert i. induction l as [|x l IH]; intros i; simpl.
  - split; [tauto | intros (n & _ & H); destruct n; discriminate].
  - rewrite IH. split.
    + intros [H | (n & -> & H)].
      * inversion H; subst. exists 0%nat. split; [simpl; lia | reflexivity].
      * exists (Datatypes.S n). split; [lia | exact H].
    + intros ([|n] & -> & H); simpl in H.
      * left. inversion H; subst. f_equal. simpl; lia.
      * right. exists n. split; [lia | exact H].
Qed.

Lemma indexed_from_fst {A} (l : list A) (i : uint64) :
  map fst (indexed_from i l)
  = map (fun n => i + Z.of_nat n) (seq 0 (List.length l)).
Proof.
  revert i. induction l as [|x l IH]; intros i; simpl; auto.
  rewrite IH, <- seq_shift, map_map. f_equal; [lia|].
  apply map_ext. intros n. lia.
Qed.

Lemma indexed_from_length {A} (l : list A) (i : uint64) :
  List.length (indexed_from i l) = List.length l.
Proof.
  revert i. induction l as [|x l IH]; intros i; simpl; [reflexivity | now rewrite IH].
Qed.

Lemma indexed_from_map {A B} (f : A -> B) (l : list A) (i : uint64) :
  map (fun entry => (fst entry, f (snd entry))) (indexed_from i l)
  = indexed_from i (map f l).
Proof.
  revert i. induction l as [|x l IH]; intros i; simpl; auto. now rewrite IH.
Qed.

Lemma Forall2_nth_error_l {A B} (R : A -> B -> Prop) l l' n x :
  Forall2 R l l' -> nth_error l n = Some x ->
  exists y, nth_error l' n = Some y /\ R x y.
Proof.
  intros H. revert n. induction H as [|a b l l' Hab _ IH]; intros n Hn.
  - destruct n; discriminate.
  - destruct n as [|n]; simpl in *.
    + inversion Hn; subst. eauto.
    + apply IH, Hn.
Qed.

(* ------------------------------------------------------------------ *)
(** ** What a found expiration is made of, and the iteration interface *)

Section Reading.

Variables SectorOnChainInfo0 SectorPreCommitOnChainInfo0 QuantSpec : Type.
Variable QuantSpecForDeadline : State0 -> uint64 -> QuantSpec.
Variable invalid_deadline : uint64 -> fault.

Implicit Types (s : state0 SectorOnChainInfo0 SectorPreCommitOnChainInfo0).
Implicit Types (num : SectorNumber) (out : SectorExpiration) (err : option error).
Implicit Types (quant : QuantSpec).

Local Abbreviation scanDl := (scanDeadline QuantSpecForDeadline).
Local Abbreviation run := (runs_to QuantSpecForDeadline).
Local Abbreviation GSE := (GetSectorExpiration QuantSpecForDeadline).
Local Abbreviation zero := (mkSectorExpiration 0 0).
Local Abbreviation live := (fun s num => origin (live_record s num true) (live_record s num false)).

Lemma origin_refl (E O : ChainEpoch -> Prop) out : origin E O out out.
Proof. split; now left. Qed.

Lemma origin_trans (E O : ChainEpoch -> Prop) out out1 out2 :
  origin E O out out1 -> origin E O out1 out2 -> origin E O out out2.
Proof.
  intros [H1 H2] [K1 K2]. split.
  - destruct K1 as [K1|K1]; [rewrite K1; exact H1 | now right].
  - destruct K2 as [K2|K2]; [rewrite K2; exact H2 | now right].
Qed.

Lemma scanPartition_live s num dls dl parts partIdx part quant out out' err :
  LoadDeadlines (State s) (store s) = Ok dls ->
  In dl (loaded_deadlines (store s) (Due dls)) ->
  PartitionsArray dl (store s) = Ok parts ->
  In (partIdx, part) (delivered (arr_scan parts)) ->
  scanPartition s num quant part partIdx out = (out', err) ->
  live s num out out'.
Proof.
  intros Hl Hdl Hp Hin H. unfold scanPartition in H.
  destruct (IsSet (Sectors part) num) as [[|] [e|]] eqn:Hsec;
    try (inversion H; subst; apply origin_refl).
  destruct (IsSet (Terminated part) num) as [[|] [e|]] eqn:Hter;
    try (inversion H; subst; apply origin_refl).
  unfold LoadExpirationQueue in H.
  destruct (get_Expirations (store s) (ExpirationsEpochs part)) as [a|f] eqn:Ea;
    [| inversion H; subst; apply origin_refl].
  unfold Array_ForEach in H; simpl in H. revert H.
  apply ForEach_scan_delivered.
  - apply origin_refl.
  - apply origin_trans.
  - intros epoch exp Hexp o o' e H. unfold scanExpirationSet in H.
    assert (R : forall early, lists num early exp ->
                live_record s num early epoch).
    { intros early Hlist. exists dls, dl, parts, partIdx, part, a, exp. auto 10. }
    destruct (IsSet (EarlySectors exp) num) as [[|] [e1|]] eqn:He;
      try (inversion H; subst; apply origin_refl).
    + inversion H; subst. split; simpl; [right | now left].
      apply (R true). exact He.
    + destruct (IsSet (OnTimeSectors exp) num) as [[|] [e2|]] eqn:Ho;
        try (inversion H; subst; apply origin_refl).
      inversion H; subst. split; simpl; [now left | right].
      apply (R false). exact Ho.
Qed.

Lemma scanDeadline_live s num dls dl dlIdx out out' err :
  LoadDeadlines (State s) (store s) = Ok dls ->
  In dl (loaded_deadlines (store s) (Due dls)) ->
  scanDl s num dlIdx dl out = (out', err) ->
  live s num out out'.
Proof.
  intros Hl Hdl. unfold scanDeadline.
  destruct (PartitionsArray dl (store s)) as [parts|f] eqn:Hp.
  - unfold Array_ForEach. apply ForEach_scan_delivered.
    + apply origin_refl.
    + apply origin_trans.
    + intros i part Hin o o' e H. eapply scanPartition_live; eauto.
  - intros H; inversion H; subst. apply origin_refl.
Qed.

Lemma run_live s num out err : run s num out err -> live s num zero out.
Proof.
  intros (dls & Hl & Ht). unfold traverse, Deadlines_ForEach in Ht. revert Ht.
  apply Deadlines_ForEach_from_loaded.
  - apply origin_refl.
  - apply origin_trans.
  - intros i dl Hin o o' e H. eapply scanDeadline_live; eauto.
Qed.

(** A value returned by the query comes from scans that ended without a
    collaborator's error, and one of its epochs is not 0. *)
Lemma found_run s num v e :
  GSE s num = (Some v, e) ->
  e = None /\ (Early v <> 0 \/ OnTime v <> 0) /\ exists err, run s num v err.
Proof.
  unfold GetSectorExpiration.
  destruct (LoadDeadlines (State s) (store s)) as [dls|f] eqn:Hl; [|discriminate].
  destruct (traverse QuantSpecForDeadline s num dls) as [out err] eqn:Ht.
  assert (K : (if (Early out =? 0) && (OnTime out =? 0)
               then (@None SectorExpiration, @None error)
               else (Some out, None)) = (Some v, e) ->
              e = None /\ (Early v <> 0 \/ OnTime v <> 0) /\ exists err, run s num v err).
  { destruct (Z.eqb_spec (Early out) 0) as [E1|E1];
      destruct (Z.eqb_spec (OnTime out) 0) as [E2|E2]; simpl;
      intros H; inversion H; subst; repeat split; auto;
      exists err, dls; auto. }
  destruct err as [[| |]|]; simpl; try discriminate; exact K.
Qed.

(** X1: a value returned by [GetSectorExpiration] comes with a nil error,
    has an epoch that is not 0, and each of its epochs that is not 0 is the
    key of an expiration set, delivered by the queue of a partition that
    holds the sector and has not terminated it, that lists the sector in
    [EarlySectors], respectively in [OnTimeSectors]. *)
Theorem found_epochs_are_live_records s num v e :
  GSE s num = (Some v, e) ->
  e = None /\
  (Early v <> 0 \/ OnTime v <> 0) /\
  (Early v <> 0 -> live_record s num true (Early v)) /\
  (OnTime v <> 0 -> live_record s num false (OnTime v)).
Proof.
  intros H. destruct (found_run _ _ H) as (He & Hnz & err & Hrun).
  destruct (run_live Hrun) as [HE HO]. simpl in HE, HO.
  repeat split; auto.
  - intros N. destruct HE as [E|E]; [contradiction | exact E].
  - intros N. destruct HO as [E|E]; [contradiction | exact E].
Qed.

(** *** The iteration interface *)

Lemma deadlines_seen_eq s dls :
  LoadDeadlines (State s) (store s) = Ok dls ->
  deadlines_seen s
  = indexed_from 0 (map (fun dl => mkdeadline0 dl (store s))
                        (loaded_deadlines (store s) (Due dls))).
Proof.
  intros Hl. unfold deadlines_seen, ForEachDeadline, Deadlines_ForEach. rewrite Hl.
  rewrite (Deadlines_ForEach_from_record
             (fun i dl => (i, mkdeadline0 dl (store s)))).
  simpl.
  apply (indexed_from_map (fun dl => mkdeadline0 dl (store s))).
Qed.

Lemma partitions_seen_eq
    (d : deadline0 SectorOnChainInfo0 SectorPreCommitOnChainInfo0) parts :
  PartitionsArray (d_Deadline d) (d_store d) = Ok parts ->
  partitions_seen d
  = map (fun entry => (uint64_of_int64 (fst entry),
                       mkpartition0 (snd entry) (d_store d)))
        (delivered (arr_scan parts)).
Proof.
  intros Hp. unfold partitions_seen, ForEachPartition, Array_ForEach. rewrite Hp.
  rewrite (ForEach_scan_record
             (fun part i => (uint64_of_int64 i, mkpartition0 part (d_store d)))).
  reflexivity.
Qed.

(** X2: [ForEachDeadline] hands its visitor the slots in order with the
    indices 0, 1, 2, ..., and each deadline it hands over is the one that
    [LoadDeadline] returns for that index; when the iteration ends without an
    error, every deadline that [LoadDeadline] returns was visited. *)
Theorem ForEachDeadline_agrees_with_LoadDeadline s :
  (forall i d, In (i, d) (deadlines_seen s) ->
     LoadDeadline invalid_deadline s i = (Some d, None)) /\
  map fst (deadlines_seen s)
  = map Z.of_nat (seq 0 (List.length (deadlines_seen s))) /\
  (snd (ForEachDeadline s (fun i d seen => (seen ++ [(i, d)], None)) []) = None ->
   forall idx d, 0 <= idx ->
     LoadDeadline invalid_deadline s idx = (Some d, None) ->
     In (idx, d) (deadlines_seen s)).
Proof.
  destruct (LoadDeadlines (State s) (store s)) as [dls|f] eqn:Hl.
  2: { assert (E : deadlines_seen s = []).
       { unfold deadlines_seen, ForEachDeadline. now rewrite Hl. }
       rewrite E. repeat split; simpl; try tauto.
       intros _ idx d _ H. unfold LoadDeadline in H. rewrite Hl in H. discriminate. }
  rewrite (deadlines_seen_eq _ Hl). split; [|split].
  - intros i d Hin. apply indexed_from_In in Hin. destruct Hin as (n & -> & Hn).
    rewrite nth_error_map in Hn.
    destruct (nth_error (loaded_deadlines (store s) (Due dls)) n) as [dl|] eqn:En;
      [|discriminate].
    simpl in Hn. inversion Hn; subst d.
    destruct (loaded_deadlines_nth _ _ _ En) as (c & Hc & Hget).
    assert (Hlt : (n < List.length (Due dls))%nat)
      by (apply nth_error_Some; congruence).
    unfold LoadDeadline, Deadlines_LoadDeadline. rewrite Hl. simpl.
    destruct (Z.geb_spec (Z.of_nat n) (Z.of_nat (List.length (Due dls)))); [lia|].
    rewrite Nat2Z.id, Hc, Hget. reflexivity.
  - rewrite indexed_from_fst.
    match goal with
    | |- _ = map _ (seq 0 (List.length (indexed_from 0 ?l))) =>
        replace (List.length (indexed_from 0 l)) with (List.length l)
    end.
    + apply map_ext. intros n. lia.
    + symmetry. apply indexed_from_length.
  - intros Hok idx d Hidx H.
    unfold ForEachDeadline, Deadlines_ForEach in Hok. rewrite Hl in Hok.
    destruct (Deadlines_ForEach_from (store s) (Due dls) 0
                (fun i dl seen => (seen ++ [(i, mkdeadline0 dl (store s))], None)) [])
      as [seen e] eqn:Hrun.
    simpl in Hok; subst e.
    apply Deadlines_ForEach_from_all_loaded in Hrun.
    unfold LoadDeadline, Deadlines_LoadDeadline in H. rewrite Hl in H.
    destruct (idx >=? Z.of_nat (List.length (Due dls))); [discriminate|].
    destruct (nth_error (Due dls) (Z.to_nat idx)) as [c|] eqn:Hc; [|discriminate].
    destruct (get_Deadline (store s) c) as [dl|f] eqn:Hget; [|discriminate].
    inversion H; subst d.
    destruct (Forall2_nth_error_l _ Hrun Hc) as (dl' & Hn & Hget').
    assert (dl' = dl) by congruence. subst dl'.
    apply indexed_from_In. exists (Z.to_nat idx). split; [lia|].
    rewrite nth_error_map, Hn. reflexivity.
Qed.

(** X3: a sector for which [GetSectorExpiration] returns a value can be
    reached through the iteration interface: [ForEachDeadline] visits a
    deadline whose [ForEachPartition] visits a partition that lists the
    sector in [AllSectors]. *)
Theorem found_sector_is_in_a_visited_partition s num v e :
  GSE s num = (Some v, e) ->
  exists i d j p,
    In (i, d) (deadlines_seen s) /\
    In (j, p) (partitions_seen d) /\
    IsSet (fst (AllSectors p)) num = (true, None).
Proof.
  intros H. destruct (found_run _ _ H) as (_ & Hnz & err & Hrun).
  destruct (run_live Hrun) as [HE HO]. simpl in HE, HO.
  assert (L : exists early epoch, live_record s num early epoch).
  { destruct Hnz as [N|N].
    - destruct HE as [E|E]; [contradiction | eauto].
    - destruct HO as [E|E]; [contradiction | eauto]. }
  destruct L as (early & epoch & dls & dl & parts & partIdx & part & a & exp
                 & Hl & Hdl & Hp & Hin & Hsec & _).
  apply In_nth_error in Hdl. destruct Hdl as (n & Hn).
  exists (Z.of_nat n), (mkdeadline0 dl (store s)), (uint64_of_int64 partIdx),
    (mkpartition0 part (store s)).
  split; [|split].
  - rewrite (deadlines_seen_eq _ Hl). apply indexed_from_In.
    exists n. split; [lia|]. rewrite nth_error_map, Hn. reflexivity.
  - rewrite (@partitions_seen_eq (mkdeadline0 dl (store s)) parts Hp).
    apply in_map_iff. exists (partIdx, part). auto.
  - exact Hsec.
Qed.

(* ------------------------------------------------------------------ *)
(** ** What the expiration query depends on *)

Lemma same_queue_scan num (scan scan' : list (result (int64 * ExpirationSet))) out :
  Forall2 (same_set num) scan scan' ->
  ForEach_scan scan (scanExpirationSet num) out
  = ForEach_scan scan' (scanExpirationSet num) out.
Proof.
  intros H. revert out.
  induction H as [|X X' scan scan' HX _ IH]; intros out; [reflexivity|].
  destruct X as [[epoch exp]|f], X' as [[epoch' exp']|f']; simpl in HX;
    try contradiction.
  - destruct HX as (-> & He & Ho).
    assert (E : scanExpirationSet num exp epoch' out
                = scanExpirationSet num exp' epoch' out).
    { unfold scanExpirationSet. rewrite <- He.
      destruct (IsSet (EarlySectors exp) num) as [[|] [e|]]; try reflexivity.
      now rewrite <- (Ho eq_refl). }
    simpl. rewrite E.
    destruct (scanExpirationSet num exp' epoch' out) as [out1 [e|]]; auto.
  - subst. reflexivity.
Qed.

Lemma same_partition_scan s s' num quant quant'
    (scan scan' : list (result (int64 * Partition))) out :
  Forall2 (same_partition (store s) (store s') num) scan scan' ->
  ForEach_scan scan (scanPartition s num quant) out
  = ForEach_scan scan' (scanPartition s' num quant') out.
Proof.
  intros H. revert out.
  induction H as [|X X' scan scan' HX _ IH]; intros out; [reflexivity|].
  destruct X as [[partIdx part]|f], X' as [[partIdx' part']|f']; simpl in HX;
    try contradiction.
  - destruct HX as (Hsec & Hrest).
    assert (E : scanPartition s num quant part partIdx out
                = scanPartition s' num quant' part' partIdx' out).
    { unfold scanPartition. rewrite <- Hsec.
      destruct (IsSet (Sectors part) num) as [[|] [e|]]; try reflexivity.
      destruct (Hrest eq_refl) as (Hter & Hq). rewrite <- Hter.
      destruct (IsSet (Terminated part) num) as [[|] [e|]]; try reflexivity.
      specialize (Hq eq_refl). unfold same_queue in Hq.
      unfold LoadExpirationQueue, Array_ForEach.
      destruct (get_Expirations (store s) (ExpirationsEpochs part)) as [a|f],
               (get_Expirations (store s') (ExpirationsEpochs part')) as [a'|f'];
        try contradiction; simpl.
      - now apply same_queue_scan.
      - now subst. }
    simpl. rewrite E.
    destruct (scanPartition s' num quant' part' partIdx' out) as [out1 [e|]]; auto.
  - subst. reflexivity.
Qed.

Lemma same_deadline_scan s s' num (due due' : list Cid) dlIdx out :
  Forall2 (same_deadline (store s) (store s') num) due due' ->
  Deadlines_ForEach_from (store s) due dlIdx (scanDl s num) out
  = Deadlines_ForEach_from (store s') due' dlIdx (scanDl s' num) out.
Proof.
  intros H. revert dlIdx out.
  induction H as [|c c' due due' Hc _ IH]; intros dlIdx out; [reflexivity|].
  simpl. unfold same_deadline in Hc.
  destruct (get_Deadline (store s) c) as [dl|f],
           (get_Deadline (store s') c') as [dl'|f']; try contradiction.
  - assert (E : scanDl s num dlIdx dl out = scanDl s' num dlIdx dl' out).
    { unfold scanDeadline, Array_ForEach.
      destruct (PartitionsArray dl (store s)) as [ps|f],
               (PartitionsArray dl' (store s')) as [ps'|f']; try contradiction.
      - now apply same_partition_scan.
      - now subst. }
    rewrite E. destruct (scanDl s' num dlIdx dl' out) as [out1 [e|]]; auto.
  - now subst.
Qed.

(** X4: the answer of [GetSectorExpiration] for a sector depends only on
    what the traversal reads about that sector: two snapshots with the same
    deadline slots whose partitions answer alike for it in [Sectors], in
    [Terminated] where it is held, and in the keys and the two bit fields of
    the queues where it is live, give the same answer, whatever their
    [Faults], [Recoveries], [PostSubmissions], partition indices, addresses
    and other sectors are. *)
Theorem expiration_depends_on_what_is_read s s' num :
  same_for s s' num -> GSE s num = GSE s' num.
Proof.
  unfold same_for, GetSectorExpiration. intros H.
  destruct (LoadDeadlines (State s) (store s)) as [dls|f],
           (LoadDeadlines (State s') (store s')) as [dls'|f']; try contradiction.
  - unfold traverse, Deadlines_ForEach.
    now rewrite (same_deadline_scan s s' 0 (mkSectorExpiration 0 0) H).
  - now subst.
Qed.

(** *** The order of the two epochs *)

Lemma stop_key num (scan : list (result (int64 * ExpirationSet))) out out' :
  ForEach_scan scan (scanExpirationSet num) out = (out', Some stopErr) ->
  In (OnTime out') (map fst (delivered scan)).
Proof.
  revert out. induction scan as [|[[epoch exp]|f] scan IH]; intros out H;
    simpl in H; try discriminate.
  unfold scanExpirationSet at 1 in H.
  destruct (IsSet_cases (EarlySectors exp) num) as [[b E]|(f & _ & E)];
    rewrite E in H; [|discriminate].
  destruct b; [right; eapply IH; exact H|].
  destruct (IsSet_cases (OnTimeSectors exp) num) as [[b E']|(f & _ & E')];
    rewrite E' in H; [|discriminate].
  destruct b.
  - inversion H; subst. now left.
  - right. eapply IH; exact H.
Qed.

Lemma queue_stop_order num (scan : list (result (int64 * ExpirationSet))) out out' :
  StronglySorted Z.lt (map fst (delivered scan)) ->
  ForEach_scan scan (scanExpirationSet num) out = (out', Some stopErr) ->
  Early out' = Early out \/ Early out' < OnTime out'.
Proof.
  revert out. induction scan as [|[[epoch exp]|f] scan IH]; intros out Hs H;
    simpl in H; try discriminate.
  simpl in Hs. apply StronglySorted_inv in Hs. destruct Hs as [Hs Hall].
  unfold scanExpirationSet at 1 in H.
  destruct (IsSet_cases (EarlySectors exp) num) as [[b E]|(f & _ & E)];
    rewrite E in H; [|discriminate].
  destruct b.
  - destruct (IH _ Hs H) as [K|K]; [|now right].
    right. simpl in K. rewrite K.
    rewrite Forall_forall in Hall. apply Hall. eapply stop_key; exact H.
  - destruct (IsSet_cases (OnTimeSectors exp) num) as [[b E']|(f & _ & E')];
      rewrite E' in H; [|discriminate].
    destruct b.
    + inversion H; subst. now left.
    + apply (IH _ Hs H).
Qed.

(** X5: when the first partition that holds a sector has not terminated
    it and its queue, which delivers ascending keys, stops the scan on an
    on-time record, the query returns the recorded epochs, and the early
    epoch is 0 or smaller than the on-time epoch. *)
Theorem early_epoch_precedes_ontime s num dlIdx partIdx part a out :
  first_holder s num dlIdx (Ok (partIdx, part)) ->
  IsSet (Sectors part) num = (true, None) ->
  IsSet (Terminated part) num = (false, None) ->
  get_Expirations (store s) (ExpirationsEpochs part) = Ok a ->
  StronglySorted Z.lt (map fst (delivered (arr_scan a))) ->
  Array_ForEach a (scanExpirationSet num) zero = (out, Some stopErr) ->
  GSE s num =
    (if (Early out =? 0) && (OnTime out =? 0) then None else Some out, None) /\
  (Early out = 0 \/ Early out < OnTime out).
Proof.
  intros Hfirst Hsec Hter Ha Hs Hscan.
  apply first_holder_at with (QuantSpecForDeadline := QuantSpecForDeadline) in Hfirst.
  assert (Hrun : run s num out (Some stopErr)).
  { eapply partition_ends; [exact Hfirst|].
    unfold scanPartition, LoadExpirationQueue. rewrite Hsec, Hter, Ha. exact Hscan. }
  split.
  - rewrite (GetSectorExpiration_of_run Hrun).
    now destruct ((Early out =? 0) && (OnTime out =? 0)).
  - exact (@queue_stop_order num (arr_scan a) zero out Hs Hscan).
Qed.

End Reading.

(* ------------------------------------------------------------------ *)
(** ** More on the filtered view *)

Lemma filter_complement {A} (p : A -> bool) (l : list A) :
  Permutation (filter p l ++ filter (fun x => negb (p x)) l) l.
Proof.
  induction l as [|x l IH]; simpl; [constructor|].
  destruct (p x); simpl.
  - now constructor.
  - apply Permutation_sym, Permutation_cons_app, Permutation_sym, IH.
Qed.

Section Views.

Variables SectorOnChainInfo0 SectorPreCommitOnChainInfo0 : Type.
Implicit Types (s : state0 SectorOnChainInfo0 SectorPreCommitOnChainInfo0).

(** The view over a filter that decodes. *)
Lemma view_of s (bits : option (list uint64)) filterOut a :
  AsArray (store s) (st_Sectors (State s)) = Ok a ->
  exists view,
    LoadSectorsFromSet s (option_map Runs bits) filterOut = (Some view, None) /\
    (forall idx, GetFunc view idx
                 = if included bits filterOut idx then Array_Get a idx
                   else (None, None)) /\
    (forall S (fn : SectorOnChainInfo0 -> int64 -> callback S) (acc : S),
       ForEachFunc view fn acc
       = ForEach_scan (restricted bits filterOut (arr_scan a)) fn acc) /\
    visited view
    = filter (fun i => included bits filterOut (uint64_of_int64 i))
             (map fst (delivered (arr_scan a))).
Proof.
  intros Ha. unfold LoadSectorsFromSet. rewrite Ha.
  eexists; split; [reflexivity|]. split; [|split].
  - intros idx. simpl. rewrite incl_included.
    now destruct (included bits filterOut idx).
  - intros S fn acc. simpl. unfold Array_ForEach. apply restricted_ForEach.
  - unfold visited, Array_ForEach; simpl.
    rewrite restricted_ForEach, recorded_indices. simpl.
    apply delivered_restricted.
Qed.

(** X6: over one bit set, the view that keeps the set sectors and the
    view that keeps the others split the sectors array: at every index
    exactly one of them gives what the array gives and the other one
    not-found, no index is visited by both, and the indices they visit are,
    together, the indices that the array delivers. *)
Theorem complementary_views_split_the_array s (members : list uint64) a :
  AsArray (store s) (st_Sectors (State s)) = Ok a ->
  exists kept others,
    LoadSectorsFromSet s (Some (Runs members)) false = (Some kept, None) /\
    LoadSectorsFromSet s (Some (Runs members)) true = (Some others, None) /\
    (forall idx,
       (GetFunc kept idx = Array_Get a idx /\ GetFunc others idx = (None, None)) \/
       (GetFunc kept idx = (None, None) /\ GetFunc others idx = Array_Get a idx)) /\
    (forall i, In i (visited kept) -> ~ In i (visited others)) /\
    Permutation (visited kept ++ visited others) (map fst (delivered (arr_scan a))).
Proof.
  intros Ha.
  destruct (view_of s (Some members) false Ha) as (kept & Hk & Hkg & _ & Hkv).
  destruct (view_of s (Some members) true Ha) as (others & Ho & Hog & _ & Hov).
  exists kept, others. split; [exact Hk|]. split; [exact Ho|]. split; [|split].
  - intros idx. rewrite Hkg, Hog. simpl.
    destruct (existsb (Z.eqb idx) members); simpl; auto.
  - intros i Hi Hi'. rewrite Hkv in Hi. rewrite Hov in Hi'.
    apply filter_In in Hi, Hi'. simpl in Hi, Hi'.
    destruct Hi as [_ Hi], Hi' as [_ Hi']. rewrite Hi in Hi'. discriminate.
  - rewrite Hkv, Hov. simpl. apply filter_complement.
Qed.

(** X7: a filter whose bit field cannot be decoded is not noticed by
    [LoadSectorsFromSet], which returns a view and no error.  Every [Get] on
    that view returns the error of the bit field wrapped as a filter check
    error, without reading the array; [ForEach] calls its visitor on nothing
    and returns nil over an array that delivers nothing, the failure of the
    array when that comes first, and the wrapped error otherwise. *)
Theorem corrupt_filter_fails_late s f filterOut a :
  AsArray (store s) (st_Sectors (State s)) = Ok a ->
  exists view,
    LoadSectorsFromSet s (Some (Corrupt f)) filterOut = (Some view, None) /\
    (forall idx,
       GetFunc view idx = (None, Some (Errorf "filter check error" (Raised f)))) /\
    (forall S (fn : SectorOnChainInfo0 -> int64 -> callback S) (acc : S),
       ForEachFunc view fn acc
       = (acc, match arr_scan a with
               | [] => None
               | Fail f' :: _ => Some (Raised f')
               | Ok _ :: _ => Some (Errorf "filter check error" (Raised f))
               end)) /\
    visited view = [].
Proof.
  intros Ha. unfold LoadSectorsFromSet. rewrite Ha.
  eexists; split; [reflexivity|]. split; [|split].
  - reflexivity.
  - intros S fn acc. simpl. unfold Array_ForEach.
    destruct (arr_scan a) as [|[[i v]|f'] rest]; reflexivity.
  - unfold visited, Array_ForEach. simpl.
    destruct (arr_scan a) as [|[[i v]|f'] rest]; reflexivity.
Qed.

(** X8: with the empty bit set as filter, keeping the set sectors hides
    every entry, while [ForEach] still walks the array and returns its
    failure; keeping the others is the sectors array itself. *)
Theorem empty_filter_views s a :
  AsArray (store s) (st_Sectors (State s)) = Ok a ->
  (exists view,
     LoadSectorsFromSet s (Some (Runs [])) false = (Some view, None) /\
     (forall idx, GetFunc view idx = (None, None)) /\
     visited view = [] /\
     (forall S (fn : SectorOnChainInfo0 -> int64 -> callback S) (acc : S),
        ForEachFunc view fn acc
        = (acc, snd (Array_ForEach a (fun _ _ u => (u, None)) tt)))) /\
  (exists view,
     LoadSectorsFromSet s (Some (Runs [])) true = (Some view, None) /\
     (forall idx, GetFunc view idx = Array_Get a idx) /\
     (forall S (fn : SectorOnChainInfo0 -> int64 -> callback S) (acc : S),
        ForEachFunc view fn acc = Array_ForEach a fn acc)).
Proof.
  intros Ha. unfold LoadSectorsFromSet. rewrite Ha. split.
  - eexists; split; [reflexivity|]. split; [reflexivity|]. split.
    + unfold visited, Array_ForEach. simpl.
      generalize (@nil int64). induction (arr_scan a) as [|[[i v]|f'] rest IH];
        intros seen; simpl; auto.
    + intros S fn acc. simpl. unfold Array_ForEach.
      revert acc. induction (arr_scan a) as [|[[i v]|f'] rest IH];
        intros acc; simpl; auto.
  - eexists; split; [reflexivity|]. split; [reflexivity|].
    intros S fn acc. reflexivity.
Qed.

End Views.

(* ------------------------------------------------------------------ *)
(** ** Allocation and the comparison of partitions *)

Section Others.

Variables SectorOnChainInfo0 SectorPreCommitOnChainInfo0 : Type.
Implicit Types (s : state0 SectorOnChainInfo0 SectorPreCommitOnChainInfo0).
Implicit Types (d : deadline0 SectorOnChainInfo0 SectorPreCommitOnChainInfo0).

(** X9: [IsAllocated] answers true exactly when the allocated-sectors bit
    field can be loaded and decoded and holds the number, and then without
    an error; an answer that comes with an error is false. *)
Theorem IsAllocated_true_iff_member s num :
  (forall e, IsAllocated s num = (true, e) <->
     e = None /\
     exists members,
       get_BitField (store s) (st_AllocatedSectors (State s)) = Ok (Runs members) /\
       In num members) /\
  (forall b e, IsAllocated s num = (b, Some e) -> b = false).
Proof.
  unfold IsAllocated. split.
  - intros e. split.
    + destruct (get_BitField (store s) (st_AllocatedSectors (State s)))
        as [[members|f]|f]; simpl; intros H; try discriminate.
      inversion H as [[Hm He]]. split; [reflexivity|].
      exists members. split; [reflexivity|].
      apply existsb_exists in Hm. destruct Hm as (x & Hx & Hxe).
      apply Z.eqb_eq in Hxe. now subst x.
    + intros (-> & members & Hg & Hin). rewrite Hg. simpl. f_equal.
      apply existsb_exists. exists num. split; [exact Hin | apply Z.eqb_refl].
  - intros b e.
    destruct (get_BitField (store s) (st_AllocatedSectors (State s)))
      as [[members|f]|f]; simpl; intros H; inversion H; reflexivity.
Qed.

(** X10: against a deadline of the same schema version [PartitionsChanged]
    returns the result of [Equals] on the two partitions arrays: it reports a
    deadline compared with itself as changed, it gives the same answer in
    both directions, and it reports a deadline of a later version as
    changed. *)
Theorem PartitionsChanged_returns_Equals d :
  PartitionsChanged d (IsDeadline0 d) = true /\
  (forall other0,
     PartitionsChanged d (IsDeadline0 other0) = true <->
     Partitions (d_Deadline d) = Partitions (d_Deadline other0)) /\
  (forall other0,
     PartitionsChanged d (IsDeadline0 other0)
     = PartitionsChanged other0 (IsDeadline0 d)) /\
  (forall version, PartitionsChanged d (LaterDeadline _ _ version) = true).
Proof.
  unfold PartitionsChanged, Cid_Equals. split; [|split; [|split]].
  - apply Z.eqb_refl.
  - intros other0. apply Z.eqb_eq.
  - intros other0. apply Z.eqb_sym.
  - reflexivity.
Qed.

End Others.

(* ------------------------------------------------------------------ *)
(** ** The further theorems on the example snapshots *)

Lemma found_epochs_are_live_records_witness :
  GetSectorExpiration quantEx snapshot1 7 = (Some (mkSectorExpiration 1200 800), None) /\
  live_record snapshot1 7 true 800 /\
  live_record snapshot1 7 false 1200.
Proof.
  assert (H : GetSectorExpiration quantEx snapshot1 7
              = (Some (mkSectorExpiration 1200 800), None)) by reflexivity.
  split; [exact H|].
  destruct (found_epochs_are_live_records quantEx snapshot1 7 H) as (_ & _ & HE & HO).
  split; [apply HE | apply HO]; discriminate.
Defined.

Lemma ForEachDeadline_agrees_with_LoadDeadline_witness :
  In (1, mkdeadline0 (mkDeadline 21 (Runs [])) store1) (deadlines_seen snapshot1) /\
  LoadDeadline no_such_deadline snapshot1 1
  = (Some (mkdeadline0 (mkDeadline 21 (Runs [])) store1), None).
Proof.
  assert (H : In (1, mkdeadline0 (mkDeadline 21 (Runs [])) store1)
                 (deadlines_seen snapshot1)) by (right; left; reflexivity).
  split; [exact H|].
  exact (proj1 (ForEachDeadline_agrees_with_LoadDeadline no_such_deadline snapshot1)
           _ _ H).
Defined.

Lemma found_sector_is_in_a_visited_partition_witness :
  GetSectorExpiration quantEx snapshot1 7 = (Some (mkSectorExpiration 1200 800), None) /\
  exists i d j p,
    In (i, d) (deadlines_seen snapshot1) /\
    In (j, p) (partitions_seen d) /\
    IsSet (fst (AllSectors p)) 7 = (true, None).
Proof.
  assert (H : GetSectorExpiration quantEx snapshot1 7
              = (Some (mkSectorExpiration 1200 800), None)) by reflexivity.
  split; [exact H|].
  exact (found_sector_is_in_a_visited_partition quantEx snapshot1 7 H).
Defined.

Lemma same_for_7 : same_for snapshot1 snapshot3 7.
Proof.
  unfold same_for. simpl.
  constructor; [|constructor; [|constructor]].
  - unfold same_deadline. simpl.
    repeat (constructor;
            [simpl; split; [reflexivity | intros H; discriminate H] |]).
    constructor.
  - unfold same_deadline. simpl.
    constructor; [|repeat (constructor;
                           [simpl; split; [reflexivity | intros H; discriminate H] |]);
                   constructor].
    simpl. split; [reflexivity|]. intros _. split; [reflexivity|]. intros _.
    unfold same_queue. simpl.
    constructor; [|constructor; [|constructor; [|constructor]]]; simpl.
    + split; [reflexivity|]. split; [reflexivity|]. intros _. reflexivity.
    + split; [reflexivity|]. split; [reflexivity|]. intros H; discriminate H.
    + split; [reflexivity|]. split; [reflexivity|]. intros _. reflexivity.
Defined.

(** The two snapshots give sector 7 the same expiration. *)
Lemma expiration_depends_on_what_is_read_witness :
  same_for snapshot1 snapshot3 7 /\
  GetSectorExpiration quantEx snapshot1 7 = GetSectorExpiration quantEx snapshot3 7.
Proof.
  split; [exact same_for_7|].
  exact (@expiration_depends_on_what_is_read _ _ _ quantEx _ _ _ same_for_7).
Defined.

Lemma first_holder_of_7 : first_holder snapshot1 7 1 (Ok (0, p21_0)).
Proof.
  exists (mkDeadlines [10; 11]), [10], 11, [], (mkDeadline 21 (Runs [])), partitions21,
    [], [Ok (1, p21_1); Ok (2, p21_2)].
  split; [reflexivity|]. split; [reflexivity|]. split; [reflexivity|]. split.
  - unfold in_no_partition. simpl. constructor; [|constructor].
    exists (mkDeadline 20 (Runs [])), partitions20.
    split; [reflexivity|]. split; [reflexivity|].
    repeat (constructor; [eexists; eexists; split; reflexivity|]). constructor.
  - split; [reflexivity|]. split; [reflexivity|]. split; [reflexivity|]. constructor.
Defined.

Lemma sorted_queue_33 :
  StronglySorted Z.lt [0; 800; 1200].
Proof. repeat constructor. Defined.

(** Sector 7: the early epoch 800 precedes the on-time epoch 1200. *)
Lemma early_epoch_precedes_ontime_witness :
  first_holder snapshot1 7 1 (Ok (0, p21_0)) /\
  GetSectorExpiration quantEx snapshot1 7 = (Some (mkSectorExpiration 1200 800), None) /\
  (800 = 0 \/ 800 < 1200).
Proof.
  split; [exact first_holder_of_7|].
  exact (@early_epoch_precedes_ontime _ _ _ quantEx snapshot1 7 1 0 p21_0
           (array_of [(0, set_of [8] []); (800, set_of [] [7]); (1200, set_of [7] [])])
           (mkSectorExpiration 1200 800)
           first_holder_of_7 eq_refl eq_refl eq_refl sorted_queue_33 eq_refl).
Defined.

Lemma complementary_views_split_the_array_witness :
  AsArray (store snapshot1) (st_Sectors (State snapshot1)) = Ok sectorInfos /\
  exists kept others,
    LoadSectorsFromSet snapshot1 (Some (Runs [2; 5])) false = (Some kept, None) /\
    LoadSectorsFromSet snapshot1 (Some (Runs [2; 5])) true = (Some others, None) /\
    Permutation (visited kept ++ visited others) [1; 2; 3; 5; 7; 8].
Proof.
  split; [reflexivity|].
  destruct (@complementary_views_split_the_array _ _ snapshot1 [2; 5] sectorInfos
              eq_refl)
    as (kept & others & Hk & Ho & _ & _ & Hp).
  exists kept, others. split; [exact Hk|]. split; [exact Ho|]. exact Hp.
Defined.

Lemma corrupt_filter_fails_late_witness :
  AsArray (store snapshot1) (st_Sectors (State snapshot1)) = Ok sectorInfos /\
  exists view,
    LoadSectorsFromSet snapshot1 (Some (Corrupt bad_bits)) true = (Some view, None) /\
    GetFunc view 3 = (None, Some (Errorf "filter check error" (Raised bad_bits))) /\
    visited view = [].
Proof.
  split; [reflexivity|].
  destruct (@corrupt_filter_fails_late _ _ snapshot1 bad_bits true sectorInfos eq_refl)
    as (view & Hl & Hg & _ & Hv).
  exists view. split; [exact Hl|]. split; [exact (Hg 3) | exact Hv].
Defined.

Lemma empty_filter_views_witness :
  AsArray (store snapshot1) (st_Sectors (State snapshot1)) = Ok sectorInfos /\
  (exists view,
     LoadSectorsFromSet snapshot1 (Some (Runs [])) false = (Some view, None) /\
     GetFunc view 3 = (None, None) /\ visited view = []) /\
  (exists view,
     LoadSectorsFromSet snapshot1 (Some (Runs [])) true = (Some view, None) /\
     GetFunc view 3 = (Some "s3"%string, None)).
Proof.
  split; [reflexivity|].
  destruct (@empty_filter_views _ _ snapshot1 sectorInfos eq_refl)
    as [(v1 & Hl1 & Hg1 & Hv1 & _) (v2 & Hl2 & Hg2 & _)].
  split.
  - exists v1. split; [exact Hl1|]. split; [exact (Hg1 3) | exact Hv1].
  - exists v2. split; [exact Hl2|]. exact (Hg2 3).
Defined.

Lemma IsAllocated_true_iff_member_witness :
  IsAllocated snapshot1 12 = (true, None) /\
  exists members,
    get_BitField store1 3 = Ok (Runs members) /\ In 12 members.
Proof.
  assert (H : IsAllocated snapshot1 12 = (true, None)) by reflexivity.
  split; [exact H|].
  exact (proj2 (proj1 (proj1 (IsAllocated_true_iff_member snapshot1 12) None) H)).
Defined.

Lemma PartitionsChanged_returns_Equals_witness :
  Partitions (mkDeadline 20 (Runs [])) = Partitions (mkDeadline 20 (Runs [1])) /\
  PartitionsChanged (mkdeadline0 (mkDeadline 20 (Runs [])) store1)
    (IsDeadline0 (mkdeadline0 (mkDeadline 20 (Runs [1])) store2)) = true.
Proof.
  split; [reflexivity|].
  exact (proj2 (proj1 (proj2 (PartitionsChanged_returns_Equals
                                (mkdeadline0 (mkDeadline 20 (Runs [])) store1)))
                  (mkdeadline0 (mkDeadline 20 (Runs [1])) store2))
           eq_refl).
Defined.

(* ------------------------------------------------------------------ *)
(** ** Errors of the iteration interface *)

Lemma delivered_map_Ok {V} (l : list (int64 * V)) (rest : list (result (int64 * V))) :
  delivered (map Ok l ++ rest) = l ++ delivered rest.
Proof. induction l as [|x l IH]; simpl; [reflexivity | now rewrite IH]. Qed.

Lemma loaded_deadlines_app {A B} (st : Store A B) (before rest : list Cid)
    (lb : list Deadline) :
  Forall2 (fun c dl => get_Deadline st c = Ok dl) before lb ->
  loaded_deadlines st (before ++ rest) = lb ++ loaded_deadlines st rest.
Proof.
  induction 1 as [|c dl before lb Hc _ IH]; simpl; [reflexivity|].
  now rewrite Hc, IH.
Qed.

Section InterfaceErrors.

Variables SectorOnChainInfo0 SectorPreCommitOnChainInfo0 : Type.
Implicit Types (s : state0 SectorOnChainInfo0 SectorPreCommitOnChainInfo0).
Implicit Types (d : deadline0 SectorOnChainInfo0 SectorPreCommitOnChainInfo0).

(** X11: an error returned by [ForEachDeadline] is the error of the store
    that failed to load the deadlines or one of the slots, or it is the
    error that the visitor returned, as it is, on a deadline that the
    iteration visits; the value captured by the visitor is then the one that
    this call left. *)
Theorem ForEachDeadline_error_origin {S} s
    (cb : uint64 -> deadline0 SectorOnChainInfo0 SectorPreCommitOnChainInfo0
          -> callback S) (acc acc' : S) e :
  ForEachDeadline s cb acc = (acc', Some e) ->
  (exists f, e = Raised f /\ LoadDeadlines (State s) (store s) = Fail f /\ acc' = acc) \/
  (exists f dls c,
     e = Raised f /\ LoadDeadlines (State s) (store s) = Ok dls /\
     In c (Due dls) /\ get_Deadline (store s) c = Fail f) \/
  (exists i d a, In (i, d) (deadlines_seen s) /\ cb i d a = (acc', Some e)).
Proof.
  unfold ForEachDeadline. intros H.
  destruct (LoadDeadlines (State s) (store s)) as [dls|f] eqn:Hl.
  2: { left. inversion H; subst. eauto. }
  right. unfold Deadlines_ForEach in H.
  destruct (Deadlines_ForEach_from_error _ _ _ _ _ H)
    as (before & c & after & a1 & Hd & Hb & HX).
  destruct (get_Deadline (store s) c) as [dl|f] eqn:Hc.
  - right. exists (Z.of_nat (List.length before)), (mkdeadline0 dl (store s)), a1.
    split; [|exact HX].
    rewrite (deadlines_seen_eq _ Hl). apply indexed_from_In.
    exists (List.length before). split; [lia|].
    rewrite nth_error_map, Hd.
    rewrite (loaded_deadlines_app _ _ (Deadlines_ForEach_from_all_loaded _ _ _ _ _ Hb)).
    assert (E : List.length (loaded_deadlines (store s) before) = List.length before).
    { symmetry. eapply Forall2_length.
      eapply Deadlines_ForEach_from_all_loaded; exact Hb. }
    rewrite nth_error_app2 by lia. rewrite E, Nat.sub_diag. simpl. now rewrite Hc.
  - left. destruct HX as [-> _]. exists f, dls, c. repeat split; auto.
    rewrite Hd. apply in_or_app. right. now left.
Qed.

(** X12: the partitions that [ForEachPartition] visits are the entries
    that the partitions array of the deadline delivers, each with the store
    of the deadline and its index converted to [uint64]; an error that it
    returns is the error of the store or of the array, or the error that the
    visitor returned, as it is, on a partition that the iteration visits. *)
Theorem ForEachPartition_visits_and_errors d :
  (forall j p, In (j, p) (partitions_seen d) ->
     p_store p = d_store d /\
     exists parts i,
       PartitionsArray (d_Deadline d) (d_store d) = Ok parts /\
       In (i, p_Partition p) (delivered (arr_scan parts)) /\
       j = uint64_of_int64 i) /\
  (forall S (cb : uint64 -> partition0 SectorOnChainInfo0 SectorPreCommitOnChainInfo0
                  -> callback S) (acc acc' : S) e,
     ForEachPartition d cb acc = (acc', Some e) ->
     (exists f, e = Raised f /\
        (PartitionsArray (d_Deadline d) (d_store d) = Fail f \/
         exists parts, PartitionsArray (d_Deadline d) (d_store d) = Ok parts /\
                       In (Fail f) (arr_scan parts))) \/
     (exists j p a, In (j, p) (partitions_seen d) /\ cb j p a = (acc', Some e))).
Proof.
  split.
  - intros j p Hin.
    destruct (PartitionsArray (d_Deadline d) (d_store d)) as [parts|f] eqn:Hp.
    + rewrite (partitions_seen_eq _ Hp) in Hin. apply in_map_iff in Hin.
      destruct Hin as ([i part] & E & Hin). inversion E; subst. simpl.
      split; [reflexivity|]. exists parts, i. auto.
    + unfold partitions_seen, ForEachPartition in Hin. rewrite Hp in Hin.
      destruct Hin.
  - intros S cb acc acc' e H. unfold ForEachPartition in H.
    destruct (PartitionsArray (d_Deadline d) (d_store d)) as [parts|f] eqn:Hp.
    2: { left. inversion H; subst. eauto. }
    unfold Array_ForEach in H.
    destruct (ForEach_scan_error _ _ _ H) as (before & X & after & a1 & Hs & Hb & HX).
    destruct X as [[i part]|f].
    + right. exists (uint64_of_int64 i), (mkpartition0 part (d_store d)), a1.
      split; [|exact HX].
      rewrite (partitions_seen_eq _ Hp). apply in_map_iff. exists (i, part).
      split; [reflexivity|].
      rewrite Hs, <- (ForEach_scan_all_delivered _ _ _ Hb), delivered_map_Ok.
      apply in_or_app. right. now left.
    + left. destruct HX as [-> _]. exists f. split; [reflexivity|]. right.
      exists parts. split; [reflexivity|]. rewrite Hs. apply in_or_app. right. now left.
Qed.

End InterfaceErrors.

Lemma ForEachDeadline_error_origin_witness :
  ForEachDeadline snapshot1
    (fun i _ (n : nat) => if i =? 1 then (n, Some stopErr) else (Datatypes.S n, None)) 0%nat
  = (1%nat, Some stopErr) /\
  exists i d a,
    In (i, d) (deadlines_seen snapshot1) /\
    (if i =? 1 then (a, Some stopErr) else (Datatypes.S a, None)) = (1%nat, Some stopErr).
Proof.
  assert (H : ForEachDeadline snapshot1
                (fun i _ (n : nat) =>
                   if i =? 1 then (n, Some stopErr) else (Datatypes.S n, None)) 0%nat
              = (1%nat, Some stopErr)) by reflexivity.
  split; [exact H|].
  destruct (ForEachDeadline_error_origin snapshot1 _ _ H)
    as [(f & E & _) | [(f & dls & c & E & _) | K]]; [discriminate E | discriminate E | exact K].
Defined.

Lemma ForEachPartition_visits_and_errors_witness :
  In (2, mkpartition0 p20_2 store1)
     (partitions_seen (mkdeadline0 (mkDeadline 20 (Runs [])) store1)) /\
  p_store (mkpartition0 p20_2 store1) = store1.
Proof.
  assert (H : In (2, mkpartition0 p20_2 store1)
                 (partitions_seen (mkdeadline0 (mkDeadline 20 (Runs [])) store1)))
    by (right; right; left; reflexivity).
  split; [exact H|].
  exact (proj1 (proj1 (ForEachPartition_visits_and_errors
                         (mkdeadline0 (mkDeadline 20 (Runs [])) store1)) _ _ H)).
Defined.

(* ------------------------------------------------------------------ *)
(** ** Terminated sectors under the uniqueness of the holder *)

Section Uniqueness.

Variables SectorOnChainInfo0 SectorPreCommitOnChainInfo0 QuantSpec : Type.
Variable QuantSpecForDeadline : State0 -> uint64 -> QuantSpec.

Implicit Types (s : state0 SectorOnChainInfo0 SectorPreCommitOnChainInfo0).
Implicit Types (num : SectorNumber) (out : SectorExpiration).
Implicit Types (quant : QuantSpec).

Local Abbreviation scanDl := (scanDeadline QuantSpecForDeadline).
Local Abbreviation run := (runs_to QuantSpecForDeadline).
Local Abbreviation atPart := (at_partition QuantSpecForDeadline).
Local Abbreviation GSE := (GetSectorExpiration QuantSpecForDeadline).
Local Abbreviation zero := (mkSectorExpiration 0 0).

(** Partitions that were scanned without an error and do not hold the
    sector leave the captured result as it was. *)
Lemma no_holder_partitions s num quant
    (scan : list (result (int64 * Partition))) out out' :
  ForEach_scan scan (scanPartition s num quant) out = (out', None) ->
  (forall m i part, nth_error scan m = Some (Ok (i, part)) ->
     IsSet (Sectors part) num = (true, None) -> False) ->
  out' = out.
Proof.
  revert out. induction scan as [|[[i part]|f] scan IH]; intros out H Hno;
    simpl in H.
  - now inversion H.
  - destruct (scanPartition s num quant part i out) as [out1 [e|]] eqn:E;
      [discriminate|].
    assert (E1 : out1 = out).
    { unfold scanPartition in E.
      destruct (IsSet_cases (Sectors part) num) as [[b Hb]|(f & _ & Hb)];
        rewrite Hb in E; [|discriminate].
      destruct b; [|now inversion E].
      elim (Hno 0%nat i part eq_refl Hb). }
    subst out1. apply IH; [exact H|].
    intros m i' part' Hm. apply (Hno (Datatypes.S m) i' part' Hm).
  - discriminate.
Qed.

Lemma no_holder_deadlines s num (due : list Cid) dlIdx out out' :
  Deadlines_ForEach_from (store s) due dlIdx (scanDl s num) out = (out', None) ->
  (forall n c dl parts m i part,
     nth_error due n = Some c -> get_Deadline (store s) c = Ok dl ->
     PartitionsArray dl (store s) = Ok parts ->
     nth_error (arr_scan parts) m = Some (Ok (i, part)) ->
     IsSet (Sectors part) num = (true, None) -> False) ->
  out' = out.
Proof.
  revert dlIdx out. induction due as [|c due IH]; intros dlIdx out H Hno;
    simpl in H.
  - now inversion H.
  - destruct (get_Deadline (store s) c) as [dl|f] eqn:Hc; [|discriminate].
    destruct (scanDl s num dlIdx dl out) as [out1 [e|]] eqn:E; [discriminate|].
    assert (E1 : out1 = out).
    { unfold scanDeadline in E.
      destruct (PartitionsArray dl (store s)) as [parts|f] eqn:Hp; [|discriminate].
      unfold Array_ForEach in E. eapply no_holder_partitions; [exact E|].
      intros m i part Hm. apply (Hno 0%nat c dl parts m i part eq_refl Hc Hp Hm). }
    subst out1. eapply IH; [exact H|].
    intros n c' dl' parts' m i part Hn.
    apply (Hno (Datatypes.S n) c' dl' parts' m i part Hn).
Qed.

(** Under uniqueness the traversal reaches the holder with nothing
    recorded. *)
Lemma unique_holder_arrival s num dlIdx partIdx part out :
  unique_holder s num ->
  atPart s num dlIdx (Ok (partIdx, part)) out ->
  IsSet (Sectors part) num = (true, None) ->
  out = zero.
Proof.
  intros Huniq (c & dl & parts & out0 & pb & pa & Hd & Hc & Hp & Hs & Hb) Hsec.
  destruct Hd as (dls & before & after & Hl & Hdue & Hi & Hbefore).
  assert (Hhere : holder s num (List.length before) (List.length pb)).
  { exists dls, c, dl, parts, partIdx, part. repeat split; auto.
    - rewrite Hdue, nth_error_app2, Nat.sub_diag by lia. reflexivity.
    - rewrite Hs, nth_error_app2, Nat.sub_diag by lia. reflexivity. }
  assert (E0 : out0 = zero).
  { eapply no_holder_deadlines; [exact Hbefore|].
    intros n c' dl' parts' m i part' Hn Hc' Hp' Hm Hsec'.
    assert (Hlt : (n < List.length before)%nat)
      by (apply nth_error_Some; congruence).
    assert (Hthere : holder s num n m).
    { exists dls, c', dl', parts', i, part'. repeat split; auto.
      rewrite Hdue, nth_error_app1 by exact Hlt. exact Hn. }
    destruct (Huniq _ _ _ _ Hthere Hhere) as [En _]. lia. }
  subst out0. eapply no_holder_partitions; [exact Hb|].
  intros m i part' Hm Hsec'.
  assert (Hlt : (m < List.length pb)%nat) by (apply nth_error_Some; congruence).
  assert (Hthere : holder s num (List.length before) m).
  { exists dls, c, dl, parts, i, part'. repeat split; auto.
    - rewrite Hdue, nth_error_app2, Nat.sub_diag by lia. reflexivity.
    - rewrite Hs, nth_error_app1 by exact Hlt. exact Hm. }
  destruct (Huniq _ _ _ _ Hthere Hhere) as [_ Em]. lia.
Qed.

(** C1: in a state that keeps the uniqueness invariant of the data model
    for [num], if the traversal finds [num] in the [Sectors] and in the
    [Terminated] of a partition, it had recorded nothing before, it ends
    there with the stop value, so that no later deadline or partition and no
    expiration queue of that partition is read, and [GetSectorExpiration]
    returns a nil result and a nil error, whatever the expiration queues
    hold for [num]. *)
Theorem terminated_sector_is_not_found s num dlIdx partIdx part out :
  unique_holder s num ->
  atPart s num dlIdx (Ok (partIdx, part)) out ->
  IsSet (Sectors part) num = (true, None) ->
  IsSet (Terminated part) num = (true, None) ->
  out = zero /\
  run s num zero (Some stopErr) /\
  GSE s num = (None, None).
Proof.
  intros Huniq Hat Hsec Hter.
  assert (E : out = zero) by (eapply unique_holder_arrival; eauto).
  subst out.
  assert (Hrun : run s num zero (Some stopErr)).
  { eapply partition_ends; [exact Hat|].
    unfold scanPartition. now rewrite Hsec, Hter. }
  repeat split; auto.
  now rewrite (GetSectorExpiration_of_run Hrun).
Qed.

End Uniqueness.

(** In the first snapshot sector 9 is held by one partition only. *)
Lemma unique_holder_9 : unique_holder snapshot1 9.
Proof.
  assert (K : forall n m, holder snapshot1 9 n m -> n = 0%nat /\ m = 1%nat).
  { intros n m (dls & c & dl & parts & i & part & Hl & Hc & Hd & Hp & Hm & Hs).
    vm_compute in Hl. inversion Hl; subst dls; clear Hl. simpl in Hc.
    destruct n as [|[|[|n]]]; simpl in Hc; try discriminate;
      inversion Hc; subst c; clear Hc;
      vm_compute in Hd; inversion Hd; subst dl; clear Hd;
      vm_compute in Hp; inversion Hp; subst parts; clear Hp;
      destruct m as [|[|[|[|m]]]]; simpl in Hm; try discriminate;
      inversion Hm; subst i part; clear Hm;
      vm_compute in Hs; try discriminate; auto. }
  intros n m n' m' H H'. apply K in H, H'. lia.
Defined.

(** Scenario 3 of the spec: sector 9 is terminated in the one partition
    that holds it, the queue of that partition still lists it, and it is not
    found. *)
Lemma terminated_sector_is_not_found_witness :
  unique_holder snapshot1 9 /\
  at_partition quantEx snapshot1 9 0 (Ok (1, p20_1)) zero /\
  IsSet (Sectors p20_1) 9 = (true, None) /\
  IsSet (Terminated p20_1) 9 = (true, None) /\
  early_record store1 9 500 /\
  GetSectorExpiration quantEx snapshot1 9 = (None, None).
Proof.
  split; [exact unique_holder_9|]. split; [exact at_terminated_9|].
  split; [reflexivity|]. split; [reflexivity|]. split.
  - exists 31, (array_of [(500, set_of [9] [9]); (1000, set_of [3] [])]), (set_of [9] [9]).
    repeat split. now left.
  - exact (proj2 (proj2 (terminated_sector_is_not_found unique_holder_9
                           at_terminated_9 eq_refl eq_refl))).
Defined.
